(** * slack-jira-bot: the message pipeline of jira-bot.go

    A shallow embedding of [jira-bot.go] and the properties of its
    identifier extraction, message filter, reply formatter and dispatch.

    Go strings are byte sequences; they are modelled by [string], whose
    characters are the 8-bit [ascii].  A byte of value 128 or more is part
    of a multi-byte rune and is never a word character, exactly like the
    rune it belongs to. *)

From Stdlib Require Import ZArith Ascii String DecimalString.
From stdpp Require Import gmap strings list.

(** String concatenation unfolds on constructors under [simpl]. *)
#[local] Arguments String.append !s1 s2 : simpl nomatch.

(** ** Bytes and character classes of package regexp *)

Definition in_range (lo hi : N) (c : ascii) : bool :=
  let n := N_of_ascii c in ((lo <=? n) && (n <=? hi))%N.

(** [\d] is [0-9]. *)
Definition is_digit (c : ascii) : bool := in_range 48 57 c.
Definition is_upper (c : ascii) : bool := in_range 65 90 c.
Definition is_lower (c : ascii) : bool := in_range 97 122 c.

(** [\w] is [0-9A-Za-z_]. *)
Definition is_word_char (c : ascii) : bool :=
  is_digit c || is_upper c || is_lower c || (N_of_ascii c =? 95)%N.

Fixpoint string_forall (p : ascii -> bool) (s : string) : bool :=
  match s with
  | EmptyString => true
  | String a s' => p a && string_forall p s'
  end.

Fixpoint string_last (prev : option ascii) (s : string) : option ascii :=
  match s with
  | EmptyString => prev
  | String a s' => string_last (Some a) s'
  end.

Definition string_head (s : string) : option ascii :=
  match s with
  | EmptyString => None
  | String a _ => Some a
  end.

(** ** A backtracking matcher for the fragment of RE2 syntax the bot uses

    A pattern is a sequence of atoms.  Capture groups do not change which
    substring [FindAllString] reports, so [(\w+)] is the atom [Plus
    is_word_char]. *)

Inductive atom : Type :=
  | WordBoundary                      (* \b *)
  | Lit (c : ascii)                   (* a literal byte *)
  | Plus (cls : ascii -> bool).       (* cls+, greedy *)

Definition Regexp : Type := list atom.

Definition opt_word (o : option ascii) : bool :=
  match o with
  | Some c => is_word_char c
  | None => false
  end.

(** [\b]: exactly one of the bytes before and after the position is a word
    character; the start and the end of the text count as non-word. *)
Definition at_word_boundary (prev : option ascii) (s : string) : bool :=
  xorb (opt_word prev) (opt_word (string_head s)).

(** [match_here re prev s] matches [re] at the start of [s], [prev] being
    the byte before it, and returns the length of the match.  [Plus] first
    tries to take one more byte and falls back to the rest of the pattern:
    the leftmost-first preference of package regexp. *)
Fixpoint match_here (re : Regexp) : option ascii -> string -> option nat :=
  match re with
  | [] => fun _ _ => Some 0
  | WordBoundary :: re' => fun prev s =>
      if at_word_boundary prev s then match_here re' prev s else None
  | Lit c :: re' => fun prev s =>
      match s with
      | String a s' =>
          if Ascii.eqb a c then S <$> match_here re' (Some a) s' else None
      | EmptyString => None
      end
  | Plus cls :: re' =>
      fix loop (prev : option ascii) (s : string) {struct s} : option nat :=
        match s with
        | String a s' =>
            if cls a then
              match loop (Some a) s' with
              | Some n => Some (S n)
              | None => S <$> match_here re' (Some a) s'
              end
            else None
        | EmptyString => None
        end
  end.

(** The scan of [Regexp.allMatches].  [skip] counts the bytes of the last
    match still to step over; [adj] tells that the position is the end of
    the previous match, where an empty match is not delivered. *)
Fixpoint find_all (re : Regexp) (skip : nat) (adj : bool)
    (prev : option ascii) (s : string) {struct s} : list string :=
  match skip, s with
  | S k, String a s' => find_all re k true (Some a) s'
  | S _, EmptyString => []
  | 0, _ =>
      match match_here re prev s with
      | Some (S n) =>
          substring 0 (S n) s ::
            match s with
            | String a s' => find_all re n true (Some a) s'
            | EmptyString => []
            end
      | Some 0 =>
          (if adj then [] else [""]) ++
            match s with
            | String a s' => find_all re 0 false (Some a) s'
            | EmptyString => []
            end
      | None =>
          match s with
          | String a s' => find_all re 0 false (Some a) s'
          | EmptyString => []
          end
      end
  end.

(** ** Go slices: [None] is the nil slice *)

Definition slice (A : Type) : Type := option (list A).

Definition elems {A} (s : slice A) : list A := default [] s.
Definition len {A} (s : slice A) : nat := length (elems s).
Definition append {A} (s : slice A) (x : A) : slice A := Some (elems s ++ [x]).

(** [re.FindAllString(s, n)]: the matches in order, at most [n] of them
    ([len(s) + 1] when [n] is negative), and nil when there is none. *)
Definition FindAllString (re : Regexp) (s : string) (n : Z) : slice string :=
  let n := if (n <? 0)%Z then String.length s + 1 else Z.to_nat n in
  match take n (find_all re 0 false None s) with
  | [] => None
  | ms => Some ms
  end.

(** ** strings.ToUpper

    On text made of ASCII bytes [strings.ToUpper] subtracts ['a' - 'A']
    from the bytes ['a'..'z'] and keeps the others.  The bot applies it
    to matches of its pattern only, which are ASCII (lemma
    [issue_matches_ascii] below). *)

Definition upper_byte (c : ascii) : ascii :=
  if is_lower c then ascii_of_N (N_of_ascii c - 32) else c.

Fixpoint ToUpper (s : string) : string :=
  match s with
  | EmptyString => EmptyString
  | String a s' => String (upper_byte a) (ToUpper s')
  end.

(** ** extractIssueIDs *)

(** [regexp.MustCompile(`\b(\w+)-(\d+)\b`)] *)
Definition issue_re : Regexp :=
  [WordBoundary; Plus is_word_char; Lit "-"; Plus is_digit; WordBoundary].

(** [encountered[k]]: a missing key reads as [false]. *)
Definition map_get (m : gmap string bool) (k : string) : bool :=
  default false (m !! k).

(** One iteration of [for v := range matches]: the slot [matches[v]] is
    overwritten with its upper-casing, which [m'] names, and is the only
    slot the iteration reads. *)
Definition dedup_step (st : gmap string bool * slice string) (m : string)
    : gmap string bool * slice string :=
  let '(encountered, result) := st in
  let m' := ToUpper m in
  if bool_decide (map_get encountered m' = true) then
    (encountered, result)
  else
    (<[m' := true]> encountered, append result m').

Definition extractIssueIDs (message : string) : slice string :=
  let re := issue_re in
  let matches := FindAllString re message (-1) in
  let encountered : gmap string bool := ∅ in
  let result : slice string := Some [] in
  snd (fold_left dedup_step (elems matches) (encountered, result)).

(** ** fmt.Sprintf

    The verbs the bot uses: [%s], [%d], [%v] and [%%], without flags or
    widths; other verbs are outside this model.  A verb without operand
    prints as [%!v(MISSING)], an operand of the wrong kind as
    [%!v(type=value)], operands left over as [%!(EXTRA ...)]. *)

(** The line feed, Go's ["\n"]. *)
Definition LF : string := String (ascii_of_nat 10) "".

Inductive arg : Type :=
  | Str (s : string)
  | Int (z : Z).

(** [%d] of an [int64]. *)
Definition fmt_d (z : Z) : string := NilZero.string_of_int (Z.to_int z).

Definition fmt_v (a : arg) : string :=
  match a with
  | Str s => s
  | Int z => fmt_d z
  end.

Definition fmt_typed (a : arg) : string :=
  match a with
  | Str s => "string=" +:+ s
  | Int z => "int64=" +:+ fmt_d z
  end.

Definition fmt_verb (v : ascii) (a : arg) : string :=
  match v, a with
  | "s"%char, Str s => s
  | "d"%char, Int z => fmt_d z
  | "v"%char, _ => fmt_v a
  | _, _ => "%!" +:+ String v ("(" +:+ fmt_typed a +:+ ")")
  end.

Fixpoint fmt_extra (args : list arg) : string :=
  match args with
  | [] => ""
  | [a] => fmt_typed a
  | a :: args' => fmt_typed a +:+ ", " +:+ fmt_extra args'
  end.

Fixpoint Sprintf (format : string) (args : list arg) : string :=
  match format with
  | EmptyString =>
      match args with
      | [] => ""
      | _ => "%!(EXTRA " +:+ fmt_extra args +:+ ")"
      end
  | String "%" EmptyString => "%!(NOVERB)"
  | String "%" (String "%" format') => String "%" (Sprintf format' args)
  | String "%" (String v format') =>
      match args with
      | a :: args' => fmt_verb v a +:+ Sprintf format' args'
      | [] => "%!" +:+ String v "(MISSING)" +:+ Sprintf format' []
      end
  | String c format' => String c (Sprintf format' args)
  end.

(** ** The data of the collaborating packages *)

(** [slack.Msg]: the fields the bot reads ([Text], [Channel], [Username],
    [SubType]) and some of those it does not. *)
Module Msg.
Record t : Type := mk {
  Type_ : string;
  Channel : string;
  User : string;
  Text : string;
  Timestamp : string;
  SubType : string;
  Username : string;
  BotID : string
}.
End Msg.

(** [slack.PostMessageParameters]: the two fields the bot sets; the others
    keep their zero value. *)
Module PostMessageParameters.
Record t : Type := mk {
  Username : string;
  Markdown : bool
}.
End PostMessageParameters.

(** [*slack.Client], as made by [slack.New(token)]. *)
Module Client.
Record t : Type := mk { token : string }.
End Client.

Module Auth.
Record t : Type := mk { Login : string; Password : string }.
End Auth.

(** [*gojira.Jira], as made by [gojira.NewJira]. *)
Module Jira.
Record t : Type := mk {
  BaseUrl : string;
  ApiPath : string;
  ActivityPath : string;
  auth : Auth.t
}.
End Jira.

Module JiraUser.
Record t : Type := mk { DisplayName : string }.
End JiraUser.

Module IssueStatus.
Record t : Type := mk { Name : string }.
End IssueStatus.

(** Modelled from the spec: the declaration of [gojira.Issue] is not part
    of the sources.  The ticket record has the fields [formatMessage]
    consumes: key, status name, summary, reporter display name, assignee
    display name (nullable), and the creation moment both as a time and as
    the tracker's string.  The nullable assignee is a Go pointer, [None]
    being nil. *)
Module IssueFields.
Record t : Type := mk {
  Status : IssueStatus.t;
  Summary : string;
  Reporter : JiraUser.t;
  Assignee : option JiraUser.t;
  Created : string
}.
End IssueFields.

(** [time.Time], by the seconds since the epoch that [Unix()] returns. *)
Module Time.
Record t : Type := mk { Unix : Z }.
End Time.

Module Issue.
Record t : Type := mk {
  Key : string;
  Fields : IssueFields.t;
  CreatedAt : Time.t
}.
End Issue.

(** Configuration for the bot *)
Module BotConfig.
Record t : Type := mk {
  Username : string;
  SlackAPIKey : string;
  JiraUsername : string;
  JiraPassword : string;
  JiraBaseURL : string
}.
End BotConfig.

(** ** Effects: environment, collaborators, log, panics *)

(** A Go call returns or panics; a panic value is kept as the text [%v]
    prints for it. *)
Inductive outcome (A : Type) : Type :=
  | Ret (a : A)
  | Panic (v : string).
Arguments Ret {A} a.
Arguments Panic {A} v.

(** What the runtime prints for the panic of a nil pointer. *)
Definition nil_dereference : string :=
  "runtime error: invalid memory address or nil pointer dereference".

(** Go's [error]: [None] is nil. *)
Definition error : Type := option string.

(** The tracker and the chat transport are outside the program: any state
    [Net] and any behaviour over it.  [jira_Issue] is the method [Issue] of
    the Jira handle, [slack_PostMessage] the method [PostMessage] of the
    Slack client, which returns a channel, a timestamp and an error. *)
Class Collaborators : Type := {
  Net : Type;
  jira_Issue : Jira.t -> string -> Net -> outcome Issue.t * Net;
  slack_PostMessage :
    Client.t -> string -> string -> PostMessageParameters.t -> Net ->
    outcome (string * string * error) * Net
}.

(** What the program does to the outside, in order. *)
Inductive event : Type :=
  | Logged (line : string)
  | Fetched (jira : Jira.t) (issueID : string) (r : outcome Issue.t)
  | Posted (api : Client.t) (channel text : string)
      (params : PostMessageParameters.t)
      (r : outcome (string * string * error)).

Section Program.
Context `{Collab : Collaborators}.

Record World : Type := mkWorld {
  w_env : gmap string string;      (* the process environment *)
  w_net : Net;
  w_trace : list event
}.

Definition M (A : Type) : Type := World -> outcome A * World.

Definition ret {A} (a : A) : M A := fun w => (Ret a, w).

Definition bind {A B} (m : M A) (k : A -> M B) : M B :=
  fun w =>
    match m w with
    | (Ret a, w') => k a w'
    | (Panic v, w') => (Panic v, w')
    end.

Definition panic {A} (v : string) : M A := fun w => (Panic v, w).

Definition emit (e : event) (w : World) : World :=
  mkWorld (w_env w) (w_net w) (w_trace w ++ [e]).

(** A function body under [defer func() { if e := recover(); e != nil
    { handler } }()]: a panic of the body stops there and the function
    returns normally after the handler. *)
Definition defer_recover (handler : string -> M unit) (body : M unit)
    : M unit :=
  fun w =>
    match body w with
    | (Ret _, w') => (Ret tt, w')
    | (Panic e, w') => handler e w'
    end.

End Program.

Notation "x <- m ;; k" := (bind m (fun x => k))
  (at level 100, m at next level, right associativity, only parsing).
Notation "m ;;; k" := (bind m (fun _ => k))
  (at level 100, right associativity, only parsing).

(** ** The program *)

Section Bot.
Context `{Collab : Collaborators}.

(** [os.Getenv]: the value of the variable, empty when it is not set. *)
Definition os_Getenv (key : string) : M string :=
  fun w => (Ret (default "" (w_env w !! key)), w).

Definition log_Print (line : string) : M unit :=
  fun w => (Ret tt, emit (Logged line) w).

Definition log_Printf (format : string) (args : list arg) : M unit :=
  log_Print (Sprintf format args).

Definition slack_New (token : string) : Client.t := Client.mk token.

Definition Client_PostMessage (api : Client.t) (channel text : string)
    (params : PostMessageParameters.t) : M (string * string * error) :=
  fun w =>
    let '(r, n) := slack_PostMessage api channel text params (w_net w) in
    (r, mkWorld (w_env w) n (w_trace w ++ [Posted api channel text params r])).

Definition Jira_Issue (jira : Jira.t) (issueID : string) : M Issue.t :=
  fun w =>
    let '(r, n) := jira_Issue jira issueID (w_net w) in
    (r, mkWorld (w_env w) n (w_trace w ++ [Fetched jira issueID r])).

(** Selecting a field through a pointer: a nil pointer panics. *)
Definition deref {A} (p : option A) : M A :=
  match p with
  | Some a => ret a
  | None => panic nil_dereference
  end.

Definition getConfig : M BotConfig.t :=
  key <- os_Getenv "SLACK_API_KEY" ;;
  baseURL <- os_Getenv "JIRA_BASEURL" ;;
  username <- os_Getenv "JIRA_USERNAME" ;;
  password <- os_Getenv "JIRA_PASSWORD" ;;
  ret {| BotConfig.Username := "JiraBot";
         BotConfig.SlackAPIKey := key;
         BotConfig.JiraBaseURL := baseURL;
         BotConfig.JiraUsername := username;
         BotConfig.JiraPassword := password |}.

Definition getSlackAPI : M Client.t :=
  c <- getConfig ;;
  ret (slack_New (BotConfig.SlackAPIKey c)).

Definition getJiraURL (issueKey : string) : M string :=
  c <- getConfig ;;
  ret (BotConfig.JiraBaseURL c +:+ "/browse/" +:+ issueKey).

Definition formatMessage (issue : Issue.t) : M string :=
  let message := "" in
  url <- getJiraURL (Issue.Key issue) ;;
  let message := message +:+ Sprintf
    ("> <%s|%s> :traffic_light: *Status:* %s :memo: *Summary:* %s" +:+ LF)
    [Str url;
     Str (Issue.Key issue);
     Str (IssueStatus.Name (IssueFields.Status (Issue.Fields issue)));
     Str (IssueFields.Summary (Issue.Fields issue))] in
  assignee <- deref (IssueFields.Assignee (Issue.Fields issue)) ;;
  let message := message +:+ Sprintf
    ("> :bust_in_silhouette: *Creator:* %s, *Assignee:* %s" +:+ LF)
    [Str (JiraUser.DisplayName (IssueFields.Reporter (Issue.Fields issue)));
     Str (JiraUser.DisplayName assignee)] in
  let message := message +:+ Sprintf
    "> :calendar: *Created:* <!date^%d^{date} at {time}|%s>"
    [Int (Time.Unix (Issue.CreatedAt issue));
     Str (IssueFields.Created (Issue.Fields issue))] in
  ret message.

Definition getJiraIssue (issueID : string) : M Issue.t :=
  let jiraAPIPath := "/rest/api/latest" in
  let jiraActivityPath := "" in
  c1 <- getConfig ;;
  c2 <- getConfig ;;
  c3 <- getConfig ;;
  let jira := Jira.mk (BotConfig.JiraBaseURL c1) jiraAPIPath jiraActivityPath
                (Auth.mk (BotConfig.JiraUsername c2)
                         (BotConfig.JiraPassword c3)) in
  issueData <- Jira_Issue jira issueID ;;
  ret issueData.

Definition respondToIssueMentioned (channel issueID : string) : M unit :=
  defer_recover
    (fun e =>
       log_Printf "Exception responding to issue %s: %v" [Str issueID; Str e])
    (api <- getSlackAPI ;;
     c <- getConfig ;;
     let params := {| PostMessageParameters.Username := BotConfig.Username c;
                      PostMessageParameters.Markdown := true |} in
     issueData <- getJiraIssue issueID ;;
     text <- formatMessage issueData ;;
     _ <- Client_PostMessage api channel text params ;;
     ret tt).

Definition shouldIgnoreMessage (message : Msg.t) : M bool :=
  c <- getConfig ;;
  ret (bool_decide (Msg.Username message = BotConfig.Username c)
       || bool_decide (Msg.SubType message = "bot_message")).

(** [for i := 0; i < len(matches); i++ { body(matches[i]) }] *)
Fixpoint for_each {A} (l : list A) (body : A -> M unit) : M unit :=
  match l with
  | [] => ret tt
  | x :: l' => body x ;;; for_each l' body
  end.

Definition handleIncomingMessage (message : Msg.t) : M unit :=
  let messageText := Msg.Text message in
  ignore <- shouldIgnoreMessage message ;;
  if ignore then
    log_Print "handleMessage: Ignoring message"
  else
    let matches := extractIssueIDs messageText in
    for_each (elems matches) (fun issueID =>
      log_Printf ("handleMessage: Identified " +:+ issueID +:+ " in message")
        [] ;;;
      respondToIssueMentioned (Msg.Channel message) issueID).

(** The events of [rtm.IncomingEvents]; a latency and an error are kept as
    the text the log prints for them. *)
Inductive RTMEvent : Type :=
  | MessageEvent (msg : Msg.t)
  | LatencyReport (value : string)
  | RTMError (err : string)
  | InvalidAuthEvent
  | OtherEvent.

Definition handle_event (ev : RTMEvent) : M unit :=
  match ev with
  | MessageEvent msg => handleIncomingMessage msg
  | LatencyReport value =>
      log_Printf ("main: Current latency: %v" +:+ LF) [Str value]
  | RTMError err =>
      log_Printf ("main: Error: %s" +:+ LF) [Str err]
  | InvalidAuthEvent => log_Print "main: Invalid credentials"
  | OtherEvent => ret tt
  end.

(** [main] on the events delivered so far: the loop itself never ends. *)
Definition main (events : list RTMEvent) : M unit :=
  api <- getSlackAPI ;;
  log_Print "main: Now listening for events" ;;;
  for_each events handle_event.

(** ** Observations on a trace *)

(** The replies handed to the transport and accepted by it. *)
Definition is_reply (e : event) : bool :=
  match e with
  | Posted _ _ _ _ (Ret (_, _, None)) => true
  | _ => false
  end.

Definition replies (tr : list event) : list event := filter is_reply tr.

Definition is_post (e : event) : bool :=
  match e with
  | Posted _ _ _ _ _ => true
  | _ => false
  end.

(** Every call of [PostMessage], whatever became of it. *)
Definition posts (tr : list event) : list event := filter is_post tr.

Definition logged (tr : list event) : list string :=
  omap (fun e => match e with Logged l => Some l | _ => None end) tr.

End Bot.

(** ** Vocabulary of the properties *)

(** The denotation of a pattern: [sem re prev m rest] says that [m],
    preceded by the byte [prev] and followed by [rest], is in the language
    of [re]. *)
Fixpoint sem (re : Regexp) (prev : option ascii) (m rest : string) : Prop :=
  match re with
  | [] => m = ""
  | WordBoundary :: re' =>
      at_word_boundary prev (m +:+ rest) = true ∧ sem re' prev m rest
  | Lit c :: re' => ∃ m', m = String c m' ∧ sem re' (Some c) m' rest
  | Plus cls :: re' =>
      ∃ w m', m = w +:+ m' ∧ w ≠ "" ∧ string_forall cls w = true ∧
              sem re' (string_last prev w) m' rest
  end.

(** Word characters, a hyphen, digits. *)
Definition issue_token (m : string) : Prop :=
  ∃ w d, m = w +:+ "-" +:+ d ∧
         w ≠ "" ∧ string_forall is_word_char w = true ∧
         d ≠ "" ∧ string_forall is_digit d = true.

(** [m] occurs in [text] between word boundaries: no word character
    stands right before or right after it. *)
Definition delimited_in (text m : string) : Prop :=
  ∃ pre post, text = pre +:+ m +:+ post ∧
              opt_word (string_last None pre) = false ∧
              opt_word (string_head post) = false.

(** [x] is at index [i] of [l] and nowhere before. *)
Definition first_at (l : list string) (i : nat) (x : string) : Prop :=
  l !! i = Some x ∧ ∀ j, j < i → l !! j ≠ Some x.

(** The matches of the bot's pattern in a text, upper-cased, duplicates
    included: what the loop of [extractIssueIDs] walks over. *)
Definition upper_matches (text : string) : list string :=
  ToUpper <$> elems (FindAllString issue_re text (-1)).

(** A token that occurs in [s] between word boundaries, [prev] being the
    byte before [s]. *)
Definition delimited_after (prev : option ascii) (s m : string) : Prop :=
  ∃ pre post, s = pre +:+ m +:+ post ∧ issue_token m ∧
              opt_word (string_last prev pre) = false ∧
              opt_word (string_head post) = false.


(** What holds of [encountered] and [result] after the loop has walked
    over matches whose upper-casings are [ups]. *)
Definition loop_inv (ups : list string)
    (st : gmap string bool * slice string) : Prop :=
  ∃ res, st.2 = Some res ∧
    NoDup res ∧
    (∀ x, map_get st.1 x = true ↔ x ∈ res) ∧
    (∀ x, x ∈ res ↔ x ∈ ups) ∧
    (∀ i j x y, i < j → res !! i = Some x → res !! j = Some y →
       ∃ a b, a < b ∧ first_at ups a x ∧ first_at ups b y).


Section Vocabulary.
Context `{Collab : Collaborators}.

(** The configuration an environment gives. *)
Definition config_of (env : gmap string string) : BotConfig.t :=
  {| BotConfig.Username := "JiraBot";
     BotConfig.SlackAPIKey := default "" (env !! "SLACK_API_KEY");
     BotConfig.JiraBaseURL := default "" (env !! "JIRA_BASEURL");
     BotConfig.JiraUsername := default "" (env !! "JIRA_USERNAME");
     BotConfig.JiraPassword := default "" (env !! "JIRA_PASSWORD") |}.

(** The body of [respondToIssueMentioned], before its deferred recover. *)
Definition respond_body (channel issueID : string) : M unit :=
  api <- getSlackAPI ;;
  c <- getConfig ;;
  let params := {| PostMessageParameters.Username := BotConfig.Username c;
                   PostMessageParameters.Markdown := true |} in
  issueData <- getJiraIssue issueID ;;
  text <- formatMessage issueData ;;
  _ <- Client_PostMessage api channel text params ;;
  ret tt.

(** The two lines the dispatch writes to the log for an identifier. *)
Definition identified_line (issueID : string) : string :=
  Sprintf ("handleMessage: Identified " +:+ issueID +:+ " in message") [].

Definition exception_line (issueID e : string) : string :=
  "Exception responding to issue " +:+ issueID +:+ ": " +:+ e.

(** A failed identifier as the trace shows it: the line of a recovered
    panic, or an error returned by [PostMessage]. *)
Definition is_failure (e : event) : bool :=
  match e with
  | Logged line => String.prefix "Exception responding to issue " line
  | Posted _ _ _ _ (Ret (_, _, Some _)) => true
  | _ => false
  end.

Definition failures (tr : list event) : list event := filter is_failure tr.

(** The three lines of a reply. *)
Definition link_line (baseURL : string) (issue : Issue.t) : string :=
  "> <" +:+ (baseURL +:+ "/browse/" +:+ Issue.Key issue) +:+ "|" +:+
  Issue.Key issue +:+ "> :traffic_light: *Status:* " +:+
  IssueStatus.Name (IssueFields.Status (Issue.Fields issue)) +:+
  " :memo: *Summary:* " +:+ IssueFields.Summary (Issue.Fields issue).

Definition people_line (issue : Issue.t) (assignee : JiraUser.t) : string :=
  "> :bust_in_silhouette: *Creator:* " +:+
  JiraUser.DisplayName (IssueFields.Reporter (Issue.Fields issue)) +:+
  ", *Assignee:* " +:+ JiraUser.DisplayName assignee.

Definition date_line (issue : Issue.t) : string :=
  "> :calendar: *Created:* <!date^" +:+
  fmt_d (Time.Unix (Issue.CreatedAt issue)) +:+ "^{date} at {time}|" +:+
  IssueFields.Created (Issue.Fields issue) +:+ ">".

(** The processing of an identifier succeeds from [w] to [w']: the body
    returns, and the last thing it did is a post the transport accepted. *)
Definition succeeds (channel issueID : string) (w w' : World) : Prop :=
  respond_body channel issueID w = (Ret tt, w') ∧
  ∃ e, last (w_trace w') = Some e ∧ is_reply e = true.

End Vocabulary.

Definition not_LF (c : ascii) : bool := negb (Ascii.eqb c (ascii_of_nat 10)).

(** A text without line feed. *)
Definition one_line (s : string) : Prop := string_forall not_LF s = true.

(** The lines of a text: the pieces between its line feeds. *)
Fixpoint lines (s : string) : list string :=
  match s with
  | EmptyString => [""]
  | String c s' =>
      if Ascii.eqb c (ascii_of_nat 10) then "" :: lines s'
      else match lines s' with
           | l :: ls => String c l :: ls
           | [] => [String c ""]
           end
  end.

(** [sub] occurs in [s]. *)
Definition contains (s sub : string) : Prop :=
  ∃ before after, s = before +:+ sub +:+ after.

(** The error a call of [PostMessage] returned, if it returned one. *)
Definition send_error (e : event) : option string :=
  match e with
  | Posted _ _ _ _ (Ret (_, _, Some err)) => Some err
  | _ => None
  end.

(** ** Collaborators to run the program on *)

Definition sample_issue (key : string) (assignee : option JiraUser.t)
    : Issue.t :=
  {| Issue.Key := key;
     Issue.Fields :=
       {| IssueFields.Status := IssueStatus.mk "Open";
          IssueFields.Summary := "Login page times out";
          IssueFields.Reporter := JiraUser.mk "Alice";
          IssueFields.Assignee := assignee;
          IssueFields.Created := "2016-03-01T10:00:00.000+0000" |};
     Issue.CreatedAt := Time.mk 1456826400 |}.

(** A tracker that cannot be reached for "BAD-1", has "NOBODY-7"
    unassigned and every other ticket assigned to Bob. *)
Definition sample_tracker {N : Type} (jira : Jira.t) (issueID : string)
    (n : N) : outcome Issue.t * N :=
  if bool_decide (issueID = "BAD-1") then
    (Panic "dial tcp: connection refused", n)
  else if bool_decide (issueID = "NOBODY-7") then
    (Ret (sample_issue issueID None), n)
  else
    (Ret (sample_issue issueID (Some (JiraUser.mk "Bob"))), n).

(** A transport that accepts every message. *)
Definition steady : Collaborators :=
  {| Net := unit;
     jira_Issue := sample_tracker;
     slack_PostMessage := fun _ channel _ _ n =>
       (Ret (channel, "1456826400.000001", None), n) |}.

(** A transport that answers its first call with an error and accepts
    the following ones; the state counts the calls. *)
Definition flaky_send : Collaborators :=
  {| Net := nat;
     jira_Issue := sample_tracker;
     slack_PostMessage := fun _ channel _ _ n =>
       match n with
       | 0 => (Ret ("", "", Some "rate_limited"), S n)
       | _ => (Ret (channel, "1456826400.000001", None), S n)
       end |}.

Definition sample_env : gmap string string :=
  <["JIRA_BASEURL" := "https://jira.example.org"]>
    (<["SLACK_API_KEY" := "xoxb-1"]> ∅).

Definition sample_msg (text : string) : Msg.t :=
  {| Msg.Type_ := "message"; Msg.Channel := "C024BE91L"; Msg.User := "U2147";
     Msg.Text := text; Msg.Timestamp := "1456826399.000005";
     Msg.SubType := ""; Msg.Username := "alice"; Msg.BotID := "" |}.

(** The world at startup: nothing done yet. *)
Definition startup `{Collab : Collaborators} (env : gmap string string)
    (n : Net) : World :=
  mkWorld env n [].

(** A ticket whose summary has two lines. *)
Definition two_line_issue : Issue.t :=
  {| Issue.Key := "PROJ-9";
     Issue.Fields :=
       {| IssueFields.Status := IssueStatus.mk "Open";
          IssueFields.Summary := "Crash on start" +:+ LF +:+ "since 1.2";
          IssueFields.Reporter := JiraUser.mk "Alice";
          IssueFields.Assignee := Some (JiraUser.mk "Bob");
          IssueFields.Created := "2016-03-01T10:00:00.000+0000" |};
     Issue.CreatedAt := Time.mk 1456826400 |}.

Definition steady_start : World := startup (Collab := steady) sample_env tt.

Definition flaky_start : World := startup (Collab := flaky_send) sample_env 0.


(** ** Vocabulary of the trace of a message *)

(** The handles and the parameters the program builds from an environment:
    the tracker handle of [getJiraIssue], the client of [getSlackAPI], the
    parameters of [respondToIssueMentioned]. *)
Definition jira_of (env : gmap string string) : Jira.t :=
  Jira.mk (BotConfig.JiraBaseURL (config_of env)) "/rest/api/latest" ""
    (Auth.mk (BotConfig.JiraUsername (config_of env))
             (BotConfig.JiraPassword (config_of env))).

Definition api_of (env : gmap string string) : Client.t :=
  Client.mk (BotConfig.SlackAPIKey (config_of env)).

Definition bot_params : PostMessageParameters.t :=
  PostMessageParameters.mk "JiraBot" true.

Definition reply_text (env : gmap string string) (issue : Issue.t)
    (assignee : JiraUser.t) : string :=
  link_line (BotConfig.JiraBaseURL (config_of env)) issue +:+ LF +:+
  people_line issue assignee +:+ LF +:+ date_line issue.

(** What the dispatch of one identifier adds to the trace, case by case:
    the line that identifies it, its fetch, and then either the line of
    the recovered panic, or the post of the formatted ticket, itself
    followed by the line of the recovered panic when the post panics. *)
Inductive segment (env : gmap string string) (channel issueID : string)
    : list event -> Prop :=
  | seg_fetch_panic (v : string) :
      segment env channel issueID
        [Logged (identified_line issueID);
         Fetched (jira_of env) issueID (Panic v);
         Logged (exception_line issueID v)]
  | seg_unassigned (issue : Issue.t) :
      IssueFields.Assignee (Issue.Fields issue) = None ->
      segment env channel issueID
        [Logged (identified_line issueID);
         Fetched (jira_of env) issueID (Ret issue);
         Logged (exception_line issueID nil_dereference)]
  | seg_send_panic (issue : Issue.t) (a : JiraUser.t) (v : string) :
      IssueFields.Assignee (Issue.Fields issue) = Some a ->
      segment env channel issueID
        [Logged (identified_line issueID);
         Fetched (jira_of env) issueID (Ret issue);
         Posted (api_of env) channel (reply_text env issue a) bot_params
           (Panic v);
         Logged (exception_line issueID v)]
  | seg_sent (issue : Issue.t) (a : JiraUser.t)
      (res : string * string * error) :
      IssueFields.Assignee (Issue.Fields issue) = Some a ->
      segment env channel issueID
        [Logged (identified_line issueID);
         Fetched (jira_of env) issueID (Ret issue);
         Posted (api_of env) channel (reply_text env issue a) bot_params
           (Ret res)].

(** The calls of the tracker a trace records: handle and identifier. *)
Definition fetched (tr : list event) : list (Jira.t * string) :=
  omap (fun e => match e with
                 | Fetched jira issueID _ => Some (jira, issueID)
                 | _ => None
                 end) tr.

(** The decision of [shouldIgnoreMessage], which no environment changes. *)
Definition ignored (message : Msg.t) : bool :=
  bool_decide (Msg.Username message = "JiraBot")
  || bool_decide (Msg.SubType message = "bot_message").

(** The identifiers an event makes the bot look up. *)
Definition mentions (ev : RTMEvent) : list string :=
  match ev with
  | MessageEvent msg =>
      if ignored msg then [] else elems (extractIssueIDs (Msg.Text msg))
  | _ => []
  end.

(** A pattern that does not tell a letter from its upper case. *)
Definition case_blind (a : atom) : Prop :=
  match a with
  | WordBoundary => True
  | Lit c => ∀ x, Ascii.eqb (upper_byte x) c = Ascii.eqb x c
  | Plus cls => ∀ x, cls (upper_byte x) = cls x
  end.

Definition not_hyphen (c : ascii) : bool := negb (Ascii.eqb c "-").

(** * Properties *)

(** ** Strings *)

Lemma append_nil_r (s : string) : s +:+ "" = s.
Proof. induction s as [|a s IH]; simpl; [done | by rewrite IH]. Qed.

Lemma append_assoc (a b c : string) : (a +:+ b) +:+ c = a +:+ b +:+ c.
Proof. induction a as [|x a IH]; simpl; [done | by rewrite IH]. Qed.

Lemma string_forall_app p (a b : string) :
  string_forall p (a +:+ b) = string_forall p a && string_forall p b.
Proof.
  induction a as [|x a IH]; simpl; [done |].
  rewrite IH. by destruct (p x).
Qed.

Lemma string_last_app prev (a b : string) :
  string_last prev (a +:+ b) = string_last (string_last prev a) b.
Proof. revert prev. induction a as [|x a IH]; intros prev; simpl; auto. Qed.

Lemma substring_prefix (m rest : string) :
  substring 0 (String.length m) (m +:+ rest) = m.
Proof.
  induction m as [|x m IH]; simpl.
  - by destruct rest.
  - by rewrite IH.
Qed.

Lemma string_last_forall p prev (w : string) :
  w ≠ "" → string_forall p w = true →
  ∃ c, string_last prev w = Some c ∧ p c = true.
Proof.
  revert prev. induction w as [|x w IH]; intros prev Hne Hall; [done |].
  simpl in *. apply andb_prop in Hall as [Hx Hw].
  destruct w as [|y w].
  - exists x. by split.
  - apply IH; [done | exact Hw].
Qed.

Lemma one_line_app (a b : string) :
  one_line a → one_line b → one_line (a +:+ b).
Proof.
  unfold one_line. rewrite string_forall_app. by intros -> ->.
Qed.

Lemma lines_one_line (a : string) : one_line a → lines a = [a].
Proof.
  unfold one_line. induction a as [|c a IH]; simpl; [done |].
  intros [Hc Ha]%andb_prop. unfold not_LF in Hc.
  apply negb_true_iff in Hc. rewrite Hc, IH; done.
Qed.

Lemma lines_app_LF (a b : string) :
  one_line a → lines (a +:+ LF +:+ b) = a :: lines b.
Proof.
  unfold one_line, LF. simpl. induction a as [|c a IH]; simpl; [done |].
  intros [Hc Ha]%andb_prop. unfold not_LF in Hc.
  apply negb_true_iff in Hc. rewrite Hc, IH; done.
Qed.

Lemma uint_one_line (d : Decimal.uint) :
  one_line (NilEmpty.string_of_uint d).
Proof. unfold one_line. induction d; simpl; done. Qed.

Lemma fmt_d_one_line (z : Z) : one_line (fmt_d z).
Proof.
  unfold fmt_d, NilZero.string_of_int, NilZero.string_of_uint.
  destruct (Z.to_int z) as [d|d]; destruct d;
    first [done | apply uint_one_line
          | apply (one_line_app "-"); [done | apply uint_one_line]].
Qed.

(** ** The matcher is sound for the denotation *)

Lemma match_here_plus_cons cls re prev a s :
  match_here (Plus cls :: re) prev (String a s) =
    if cls a then
      match match_here (Plus cls :: re) (Some a) s with
      | Some n => Some (S n)
      | None => S <$> match_here re (Some a) s
      end
    else None.
Proof. reflexivity. Qed.

Lemma match_here_plus_nil cls re prev :
  match_here (Plus cls :: re) prev "" = None.
Proof. reflexivity. Qed.

Lemma match_here_sound re :
  ∀ prev s n, match_here re prev s = Some n →
    ∃ m rest, s = m +:+ rest ∧ String.length m = n ∧ sem re prev m rest.
Proof.
  induction re as [|a re IH]; intros prev s n H.
  - injection H as <-. by exists "", s.
  - destruct a as [|c|cls].
    + simpl in H. destruct (at_word_boundary prev s) eqn:Hb; [|done].
      destruct (IH _ _ _ H) as (m & rest & -> & Hlen & Hsem).
      exists m, rest. simpl. auto.
    + simpl in H. destruct s as [|x s]; [done |].
      destruct (Ascii.eqb_spec x c) as [->|]; [|done].
      destruct (match_here re (Some c) s) as [k|] eqn:Hk; [|done].
      injection H as <-.
      destruct (IH _ _ _ Hk) as (m & rest & -> & Hlen & Hsem).
      exists (String c m), rest. simpl. split; [done |]. split; [by rewrite Hlen |].
      by exists m.
    + revert prev n H. induction s as [|x s IHs]; intros prev n H.
      * by rewrite match_here_plus_nil in H.
      * rewrite match_here_plus_cons in H.
        destruct (cls x) eqn:Hx; [|done].
        destruct (match_here (Plus cls :: re) (Some x) s) as [k|] eqn:Hk.
        -- injection H as <-.
           destruct (IHs _ _ Hk) as (m & rest & -> & Hlen & w & m' & -> & Hw & Hall & Hsem).
           exists (String x (w +:+ m')), rest. simpl.
           split; [done |]. split; [by rewrite Hlen |].
           exists (String x w), m'. simpl. rewrite Hx, Hall. auto.
        -- destruct (match_here re (Some x) s) as [k'|] eqn:Hk'; [|done].
           injection H as <-.
           destruct (IH _ _ _ Hk') as (m & rest & -> & Hlen & Hsem).
           exists (String x m), rest. simpl.
           split; [done |]. split; [by rewrite Hlen |].
           exists (String x ""), m. simpl. rewrite Hx. auto.
Qed.

(** A match of the bot's pattern is a token between word boundaries. *)
Lemma issue_re_sem prev m rest :
  sem issue_re prev m rest →
  issue_token m ∧ opt_word prev = false ∧ opt_word (string_head rest) = false.
Proof.
  simpl. intros (Hb1 & w & m1 & -> & Hw & Hwall & m2 & -> & d & m3 & -> & Hd & Hdall & Hb2 & ->).
  rewrite append_nil_r in *.
  split; [by exists w, d |].
  split.
  - unfold at_word_boundary in Hb1.
    destruct w as [|x w]; [done |].
    cbn [string_forall] in Hwall. apply andb_prop in Hwall as [Hx _].
    cbn [String.append string_head opt_word] in Hb1.
    rewrite Hx in Hb1. by destruct (opt_word prev).
  - unfold at_word_boundary in Hb2. cbn [String.append] in Hb2.
    destruct (string_last_forall is_digit (Some "-"%char) d Hd Hdall)
      as (c & Hc & Hdig).
    rewrite Hc in Hb2. cbn [opt_word] in Hb2.
    assert (is_word_char c = true) as Hwc
      by (unfold is_word_char; by rewrite Hdig).
    rewrite Hwc in Hb2. by destruct (opt_word (string_head rest)).
Qed.

(** ** Every match the scan delivers is a delimited token *)

Lemma find_all_zero re adj prev s :
  find_all re 0 adj prev s =
    match match_here re prev s with
    | Some (S n) =>
        substring 0 (S n) s ::
          match s with
          | String a s' => find_all re n true (Some a) s'
          | EmptyString => []
          end
    | Some 0 =>
        (if adj then [] else [""]) ++
          match s with
          | String a s' => find_all re 0 false (Some a) s'
          | EmptyString => []
          end
    | None =>
        match s with
        | String a s' => find_all re 0 false (Some a) s'
        | EmptyString => []
        end
    end.
Proof. by destruct s. Qed.

Lemma issue_token_nonempty m : issue_token m → m ≠ "".
Proof. intros (w & d & -> & Hw & _). by destruct w. Qed.

Lemma match_here_issue prev s n :
  match_here issue_re prev s = Some n →
  ∃ m rest, s = m +:+ rest ∧ substring 0 n s = m ∧ n ≠ 0 ∧
            issue_token m ∧ opt_word prev = false ∧
            opt_word (string_head rest) = false.
Proof.
  intros H.
  destruct (match_here_sound _ _ _ _ H) as (m & rest & -> & <- & Hsem).
  destruct (issue_re_sem _ _ _ Hsem) as (Htok & Hp & Hr).
  exists m, rest. rewrite substring_prefix.
  repeat split; try done.
  intros Hz. apply (issue_token_nonempty _ Htok). by destruct m.
Qed.

Lemma delimited_after_cons prev a s m :
  delimited_after (Some a) s m → delimited_after prev (String a s) m.
Proof.
  intros (pre & post & -> & Htok & Hp & Hq).
  by exists (String a pre), post.
Qed.

Lemma find_all_issue s :
  ∀ skip adj prev m,
    m ∈ find_all issue_re skip adj prev s → delimited_after prev s m.
Proof.
  induction s as [|a s IH]; intros skip adj prev m Hin.
  - destruct skip as [|k]; [|by apply elem_of_nil in Hin].
    rewrite find_all_zero in Hin.
    destruct (match_here issue_re prev "") as [n|] eqn:Hm;
      [|by apply elem_of_nil in Hin].
    destruct (match_here_issue _ _ _ Hm) as (m0 & rest & Hs & _ & _ & Htok & _).
    destruct m0; [by apply issue_token_nonempty in Htok | done].
  - destruct skip as [|k].
    + rewrite find_all_zero in Hin.
      destruct (match_here issue_re prev (String a s)) as [n|] eqn:Hm.
      * destruct (match_here_issue _ _ _ Hm)
          as (m0 & rest & Hs & Hsub & Hn & Htok & Hp & Hr).
        destruct n as [|n]; [done |].
        apply elem_of_cons in Hin as [->|Hin].
        -- exists "", rest. rewrite Hsub. by rewrite Hs.
        -- apply delimited_after_cons. by eapply IH.
      * apply delimited_after_cons. by eapply IH.
    + apply delimited_after_cons. by eapply (IH k true).
Qed.

Lemma elem_of_FindAllString re s n m :
  m ∈ elems (FindAllString re s n) → m ∈ find_all re 0 false None s.
Proof.
  unfold FindAllString.
  set (k := if (n <? 0)%Z then _ else _).
  intros Hin.
  assert (m ∈ take k (find_all re 0 false None s)) as Hin'.
  { destruct (take k (find_all re 0 false None s)); [|done].
    by apply elem_of_nil in Hin. }
  eapply elem_of_subseteq; [|exact Hin']. apply subseteq_take.
Qed.

Lemma issue_matches_delimited text m :
  m ∈ elems (FindAllString issue_re text (-1)) →
  issue_token m ∧ delimited_in text m.
Proof.
  intros Hin%elem_of_FindAllString%find_all_issue.
  destruct Hin as (pre & post & -> & Htok & Hp & Hq).
  split; [done |]. by exists pre, post.
Qed.

(** ** Upper-casing *)

Ltac by_bytes c := destruct c as [[] [] [] [] [] [] [] []]; vm_compute; congruence.

Lemma upper_byte_idem c : upper_byte (upper_byte c) = upper_byte c.
Proof. by_bytes c. Qed.

Lemma upper_byte_not_lower c : is_lower (upper_byte c) = false.
Proof. by_bytes c. Qed.

Lemma upper_byte_word c : is_word_char c = true → is_word_char (upper_byte c) = true.
Proof. by_bytes c. Qed.

Lemma upper_byte_digit c : is_digit c = true → is_digit (upper_byte c) = true.
Proof. by_bytes c. Qed.

Lemma word_char_ascii c : is_word_char c = true → (N_of_ascii c <? 128)%N = true.
Proof. by_bytes c. Qed.

Lemma ToUpper_app (a b : string) : ToUpper (a +:+ b) = ToUpper a +:+ ToUpper b.
Proof. induction a as [|x a IH]; simpl; [done | by rewrite IH]. Qed.

Lemma ToUpper_idem (s : string) : ToUpper (ToUpper s) = ToUpper s.
Proof.
  induction s as [|x s IH]; simpl; [done |].
  by rewrite upper_byte_idem, IH.
Qed.

Lemma ToUpper_no_lower (s : string) :
  string_forall (λ c, negb (is_lower c)) (ToUpper s) = true.
Proof.
  induction s as [|x s IH]; simpl; [done |].
  by rewrite upper_byte_not_lower, IH.
Qed.

Lemma ToUpper_forall p (s : string) :
  (∀ c, p c = true → p (upper_byte c) = true) →
  string_forall p s = true → string_forall p (ToUpper s) = true.
Proof.
  intros Hp. induction s as [|x s IH]; simpl; [done |].
  intros [Hx Hs]%andb_prop. by rewrite (Hp _ Hx), IH.
Qed.

Lemma issue_token_upper m : issue_token m → issue_token (ToUpper m).
Proof.
  intros (w & d & -> & Hw & Hwall & Hd & Hdall).
  exists (ToUpper w), (ToUpper d).
  rewrite !ToUpper_app. simpl.
  split; [done |].
  split; [by destruct w |].
  split; [by apply ToUpper_forall; [apply upper_byte_word |] |].
  split; [by destruct d |].
  by apply ToUpper_forall; [apply upper_byte_digit |].
Qed.

(** The matches are ASCII, so that [ToUpper] is [strings.ToUpper] on them. *)
Lemma issue_token_ascii m :
  issue_token m → string_forall (λ c, (N_of_ascii c <? 128)%N) m = true.
Proof.
  intros (w & d & -> & _ & Hwall & _ & Hdall).
  rewrite !string_forall_app. simpl.
  assert (∀ s, string_forall is_word_char s = true →
               string_forall (λ c, (N_of_ascii c <? 128)%N) s = true) as Hw.
  { induction s as [|x s IH]; simpl; [done |].
    intros [Hx Hs]%andb_prop. by rewrite (word_char_ascii _ Hx), IH. }
  assert (∀ s, string_forall is_digit s = true →
               string_forall is_word_char s = true) as Hd.
  { induction s as [|x s IH]; simpl; [done |].
    intros [Hx Hs]%andb_prop. rewrite IH by done.
    unfold is_word_char. by rewrite Hx. }
  by rewrite (Hw w), (Hw d) by auto.
Qed.

Lemma issue_matches_ascii text m :
  m ∈ elems (FindAllString issue_re text (-1)) →
  string_forall (λ c, (N_of_ascii c <? 128)%N) m = true.
Proof. intros [Htok _]%issue_matches_delimited. by apply issue_token_ascii. Qed.

(** ** First occurrences *)

Lemma first_at_app_l (l l' : list string) i x :
  first_at l i x → first_at (l ++ l') i x.
Proof.
  intros [Hi Hlt].
  assert (i < length l) by (by eapply lookup_lt_Some).
  split.
  - by rewrite lookup_app_l.
  - intros j Hj. rewrite lookup_app_l by lia. by apply Hlt.
Qed.

Lemma first_at_new (l : list string) x :
  x ∉ l → first_at (l ++ [x]) (length l) x.
Proof.
  intros Hx. split.
  - by rewrite list_lookup_middle.
  - intros j Hj Hl. rewrite lookup_app_l in Hl by done.
    apply Hx. by eapply list_elem_of_lookup_2.
Qed.

Lemma first_at_exists (l : list string) x :
  x ∈ l → ∃ a, a < length l ∧ first_at l a x.
Proof.
  induction l as [|y l IH] using rev_ind; intros Hin.
  - by apply elem_of_nil in Hin.
  - rewrite length_app. simpl.
    destruct (decide (x ∈ l)) as [Hl|Hl].
    + destruct (IH Hl) as (a & Ha & Hf).
      exists a. split; [lia |]. by apply first_at_app_l.
    + apply elem_of_app in Hin as [?|Hin]; [done |].
      apply list_elem_of_singleton in Hin as ->.
      exists (length l). split; [lia |]. by apply first_at_new.
Qed.

(** ** The loop of extractIssueIDs *)

Lemma loop_inv_init : loop_inv [] (∅, Some []).
Proof.
  exists []. simpl. split; [done |]. split; [constructor |].
  split; [|split].
  - intros x. unfold map_get. rewrite lookup_empty. simpl.
    split; [done | by intros ?%elem_of_nil].
  - done.
  - intros i j x y _ Hi. by rewrite lookup_nil in Hi.
Qed.

Lemma loop_inv_step ups st m :
  loop_inv ups st → loop_inv (ups ++ [ToUpper m]) (dedup_step st m).
Proof.
  destruct st as [enc result].
  intros (res & Hres & Hnd & Henc & Hmem & Hord). simpl in *. subst result.
  unfold dedup_step. set (u := ToUpper m).
  destruct (bool_decide_reflect (map_get enc u = true)) as [Hseen|Hnew].
  - exists res. simpl. split; [done |]. split; [done |]. split; [done |].
    split.
    + intros x. rewrite elem_of_app, list_elem_of_singleton, Hmem.
      split; [auto |]. intros [?| ->]; [done |].
      by apply Hmem, Henc.
    + intros i j x y Hij Hi Hj.
      destruct (Hord i j x y Hij Hi Hj) as (a & b & Hab & Ha & Hb).
      exists a, b. split; [done |]. split; by apply first_at_app_l.
  - assert (u ∉ res) as Hu by (by rewrite <- Henc).
    assert (u ∉ ups) as Hu' by (by rewrite <- Hmem).
    exists (res ++ [u]). simpl. split; [done |].
    split.
    { apply NoDup_app. split; [done |]. split; [|apply NoDup_singleton].
      intros x Hx ->%list_elem_of_singleton. done. }
    split.
    { intros x. unfold map_get. rewrite elem_of_app, list_elem_of_singleton.
      destruct (decide (u = x)) as [<-|Hne].
      - rewrite lookup_insert_eq. simpl. split; auto.
      - rewrite lookup_insert_ne by done. fold (map_get enc x).
        rewrite Henc. split; [auto |]. intros [?|?]; [done | congruence]. }
    split.
    { intros x. rewrite !elem_of_app, Hmem. done. }
    intros i j x y Hij Hi Hj.
    assert (j < length (res ++ [u])) as Hjlen by (by eapply lookup_lt_Some).
    rewrite length_app in Hjlen. simpl in Hjlen.
    rewrite lookup_app_l in Hi by lia.
    destruct (decide (j < length res)) as [Hlt|Hge].
    + rewrite lookup_app_l in Hj by done.
      destruct (Hord i j x y Hij Hi Hj) as (a & b & Hab & Ha & Hb).
      exists a, b. split; [done |]. split; by apply first_at_app_l.
    + assert (j = length res) as -> by lia.
      rewrite list_lookup_middle in Hj by done. injection Hj as <-.
      assert (x ∈ ups) as Hx by (apply Hmem; by eapply list_elem_of_lookup_2).
      destruct (first_at_exists _ _ Hx) as (a & Ha & Hf).
      exists a, (length ups). split; [done |].
      split; [by apply first_at_app_l | by apply first_at_new].
Qed.

Lemma loop_inv_fold ms :
  loop_inv (ToUpper <$> ms) (fold_left dedup_step ms (∅, Some [])).
Proof.
  induction ms as [|m ms IH] using rev_ind.
  - apply loop_inv_init.
  - rewrite fold_left_app, fmap_app. simpl. by apply loop_inv_step.
Qed.

Lemma extractIssueIDs_spec text :
  ∃ ids, extractIssueIDs text = Some ids ∧
    NoDup ids ∧
    (∀ x, x ∈ ids ↔ x ∈ upper_matches text) ∧
    (∀ i j x y, i < j → ids !! i = Some x → ids !! j = Some y →
       ∃ a b, a < b ∧ first_at (upper_matches text) a x ∧
              first_at (upper_matches text) b y).
Proof.
  unfold extractIssueIDs, upper_matches.
  destruct (loop_inv_fold (elems (FindAllString issue_re text (-1))))
    as (res & Hres & Hnd & _ & Hmem & Hord).
  by exists res.
Qed.

Lemma elem_of_extractIssueIDs text x :
  x ∈ elems (extractIssueIDs text) →
  ∃ m, x = ToUpper m ∧ issue_token m ∧ delimited_in text m.
Proof.
  destruct (extractIssueIDs_spec text) as (ids & -> & _ & Hmem & _).
  simpl. intros Hx%Hmem. unfold upper_matches in Hx.
  apply list_elem_of_fmap in Hx as (m & -> & Hm).
  exists m. split; [done |]. by apply issue_matches_delimited.
Qed.

Lemma FindAllString_nil re s n :
  FindAllString re s n = None ↔ elems (FindAllString re s n) = [].
Proof.
  unfold FindAllString.
  destruct (take _ (find_all re 0 false None s)); simpl; split; done.
Qed.

Lemma NoDup_once (l : list string) x :
  NoDup l → x ∈ l → length (filter (λ y, y = x) l) = 1.
Proof.
  induction 1 as [|y l Hy Hnd IH]; intros Hin.
  - by apply elem_of_nil in Hin.
  - rewrite filter_cons. destruct (decide (y = x)) as [->|Hne].
    + simpl. f_equal. apply length_zero_iff_nil.
      apply elem_of_nil_inv. intros z [-> Hz]%list_elem_of_filter. done.
    + apply elem_of_cons in Hin as [?|Hin]; [congruence | by apply IH].
Qed.

(** C3: extractIssueIDs upper-cases every match of its pattern and removes
    duplicates keeping the order of first occurrence: the identifiers it
    returns are exactly the upper-cased matches, none appears twice, and
    an identifier that comes before another in the result has its first
    occurrence among the upper-cased matches before the first occurrence
    of the other.  On "see ABC-1 and abc-1 and DEF-2" it returns
    ["ABC-1"; "DEF-2"]. *)
Theorem extract_dedup_first_occurrence :
  (∀ text, ∃ ids,
     extractIssueIDs text = Some ids ∧
     NoDup ids ∧
     (∀ x, x ∈ ids ↔ ∃ m, m ∈ elems (FindAllString issue_re text (-1)) ∧
                          x = ToUpper m) ∧
     (∀ i j x y, i < j → ids !! i = Some x → ids !! j = Some y →
        ∃ a b, a < b ∧ first_at (upper_matches text) a x ∧
               first_at (upper_matches text) b y)) ∧
  extractIssueIDs "see ABC-1 and abc-1 and DEF-2" = Some ["ABC-1"; "DEF-2"].
Proof.
  split; [|by vm_compute].
  intros text.
  destruct (extractIssueIDs_spec text) as (ids & Hids & Hnd & Hmem & Hord).
  exists ids. repeat split; try done.
  - intros Hx%Hmem. unfold upper_matches in Hx.
    apply list_elem_of_fmap in Hx as (m & -> & Hm). by exists m.
  - intros (m & Hm & ->). apply Hmem. unfold upper_matches.
    by apply list_elem_of_fmap_2.
Qed.

(** C4: extractIssueIDs reports only tokens of word characters, a hyphen
    and digits that stand between word boundaries in the text (each
    identifier is the upper-casing of such a token); "XABC-123X" gives the
    empty sequence and "(ABC-123)" gives ["ABC-123"]. *)
Theorem extract_word_boundary_tokens :
  (∀ text,
     Forall (λ x, ∃ m, x = ToUpper m ∧ issue_token m ∧ delimited_in text m)
            (elems (extractIssueIDs text))) ∧
  extractIssueIDs "XABC-123X" = Some [] ∧
  extractIssueIDs "(ABC-123)" = Some ["ABC-123"].
Proof.
  split; [|split; by vm_compute].
  intros text. apply Forall_forall. intros x. apply elem_of_extractIssueIDs.
Qed.

(** C10: every identifier extractIssueIDs returns is its own upper-casing
    and has no lowercase letter, is made of word characters, a hyphen and
    digits, and occurs exactly once in the result; the result is never the
    nil slice, and it is the empty slice exactly when the pattern has no
    match. *)
Theorem extract_result_invariants :
  ∀ text, ∃ ids,
    extractIssueIDs text = Some ids ∧
    Forall (λ x, ToUpper x = x ∧
                 string_forall (λ c, negb (is_lower c)) x = true ∧
                 issue_token x ∧
                 length (filter (λ y, y = x) ids) = 1) ids ∧
    (ids = [] ↔ FindAllString issue_re text (-1) = None).
Proof.
  intros text.
  destruct (extractIssueIDs_spec text) as (ids & Hids & Hnd & Hmem & _).
  exists ids. split; [done |]. split.
  - apply Forall_forall. intros x Hx.
    destruct (elem_of_extractIssueIDs text x) as (m & -> & Htok & _).
    { by rewrite Hids. }
    split; [apply ToUpper_idem |].
    split; [apply ToUpper_no_lower |].
    split; [by apply issue_token_upper | by apply NoDup_once].
  - rewrite FindAllString_nil. split.
    + intros ->.
      destruct (elems (FindAllString issue_re text (-1))) as [|m ms] eqn:Hms;
        [done |].
      exfalso. apply (not_elem_of_nil (ToUpper m)). apply Hmem.
      unfold upper_matches. rewrite Hms. simpl. left.
    + intros Hnil. apply elem_of_nil_inv. intros x Hx%Hmem.
      unfold upper_matches in Hx. rewrite Hnil in Hx.
      by apply elem_of_nil in Hx.
Qed.

(** ** Running the program *)

Section Dispatch.
Context `{Collab : Collaborators}.

Lemma bind_ret {A B} (m : M A) (k : A → M B) w a w' :
  m w = (Ret a, w') → bind m k w = k a w'.
Proof. unfold bind. by intros ->. Qed.

Lemma bind_panic {A B} (m : M A) (k : A → M B) w v w' :
  m w = (Panic v, w') → bind m k w = (Panic v, w').
Proof. unfold bind. by intros ->. Qed.

Lemma getConfig_run w : getConfig w = (Ret (config_of (w_env w)), w).
Proof. reflexivity. Qed.

Lemma getSlackAPI_run w :
  getSlackAPI w =
    (Ret (slack_New (BotConfig.SlackAPIKey (config_of (w_env w)))), w).
Proof. reflexivity. Qed.

Lemma getJiraURL_run issueKey w :
  getJiraURL issueKey w =
    (Ret (BotConfig.JiraBaseURL (config_of (w_env w)) +:+ "/browse/" +:+
          issueKey), w).
Proof. reflexivity. Qed.

Lemma shouldIgnoreMessage_run message w :
  shouldIgnoreMessage message w =
    (Ret (bool_decide (Msg.Username message = "JiraBot")
          || bool_decide (Msg.SubType message = "bot_message")), w).
Proof. reflexivity. Qed.

Lemma formatMessage_assigned issue assignee w :
  IssueFields.Assignee (Issue.Fields issue) = Some assignee →
  formatMessage issue w =
    (Ret (link_line (BotConfig.JiraBaseURL (config_of (w_env w))) issue
          +:+ LF +:+ people_line issue assignee +:+ LF +:+ date_line issue),
     w).
Proof.
  intros Ha. unfold formatMessage.
  rewrite (bind_ret _ _ _ _ _ (getJiraURL_run _ w)).
  rewrite Ha. simpl deref.
  rewrite (bind_ret _ _ w assignee w) by reflexivity.
  unfold ret. f_equal. f_equal.
  unfold link_line, people_line, date_line, LF.
  repeat (progress (rewrite ?append_assoc, ?append_nil_r; simpl)).
  reflexivity.
Qed.

Lemma formatMessage_unassigned issue w :
  IssueFields.Assignee (Issue.Fields issue) = None →
  formatMessage issue w = (Panic nil_dereference, w).
Proof.
  intros Ha. unfold formatMessage.
  rewrite (bind_ret _ _ _ _ _ (getJiraURL_run _ w)).
  rewrite Ha. simpl deref. by apply bind_panic.
Qed.

(** ** The log line of an identifier

    [handleIncomingMessage] passes the identifier to [log.Printf] inside
    the format; an identifier has no [%], so the line is the plain
    concatenation. *)

Lemma Sprintf_plain (s : string) :
  string_forall (λ c, negb (Ascii.eqb c "%")) s = true → Sprintf s [] = s.
Proof.
  induction s as [|c s IH]; [done |].
  cbn [string_forall]. intros [Hc Hs]%andb_prop.
  specialize (IH Hs). revert Hc.
  destruct c as [[] [] [] [] [] [] [] []]; try (intros _; simpl; by rewrite IH).
  by vm_compute.
Qed.

Lemma string_forall_impl (p q : ascii → bool) (s : string) :
  (∀ c, p c = true → q c = true) →
  string_forall p s = true → string_forall q s = true.
Proof.
  intros Hpq. induction s as [|c s IH]; simpl; [done |].
  intros [Hc Hs]%andb_prop. by rewrite (Hpq _ Hc), IH.
Qed.

Lemma word_char_not_percent c :
  is_word_char c = true → negb (Ascii.eqb c "%") = true.
Proof. by_bytes c. Qed.

Lemma digit_not_percent c :
  is_digit c = true → negb (Ascii.eqb c "%") = true.
Proof. by_bytes c. Qed.

Lemma identified_line_token issueID :
  issue_token issueID →
  identified_line issueID =
    "handleMessage: Identified " +:+ issueID +:+ " in message".
Proof.
  intros (w & d & -> & _ & Hw & _ & Hd).
  unfold identified_line. apply Sprintf_plain.
  rewrite !string_forall_app.
  rewrite (string_forall_impl _ _ w word_char_not_percent Hw).
  rewrite (string_forall_impl _ _ d digit_not_percent Hd).
  reflexivity.
Qed.

Lemma identified_line_extracted text issueID :
  issueID ∈ elems (extractIssueIDs text) →
  identified_line issueID =
    "handleMessage: Identified " +:+ issueID +:+ " in message".
Proof.
  intros (m & -> & Htok & _)%elem_of_extractIssueIDs.
  by apply identified_line_token, issue_token_upper.
Qed.

(** ** One identifier *)

Lemma prefix_app (p s : string) : String.prefix p (p +:+ s) = true.
Proof.
  induction p as [|a p IH]; simpl; [by destruct s |].
  by destruct (ascii_dec a a).
Qed.

Lemma exception_line_run issueID e :
  Sprintf "Exception responding to issue %s: %v" [Str issueID; Str e] =
    exception_line issueID e.
Proof.
  unfold exception_line.
  repeat (progress (rewrite ?append_assoc, ?append_nil_r; simpl)).
  reflexivity.
Qed.

Lemma exception_line_failure issueID e :
  is_failure (Logged (exception_line issueID e)) = true.
Proof. unfold exception_line, is_failure. apply prefix_app. Qed.

Lemma identified_line_neutral issueID :
  is_failure (Logged (identified_line issueID)) = false.
Proof. reflexivity. Qed.

Lemma getJiraIssue_run issueID w :
  getJiraIssue issueID w =
    Jira_Issue
      (Jira.mk (BotConfig.JiraBaseURL (config_of (w_env w)))
         "/rest/api/latest" ""
         (Auth.mk (BotConfig.JiraUsername (config_of (w_env w)))
                  (BotConfig.JiraPassword (config_of (w_env w)))))
      issueID w.
Proof.
  unfold getJiraIssue, bind. simpl.
  by destruct (Jira_Issue _ issueID w) as [[issue|v] w'].
Qed.

Lemma respondToIssueMentioned_body channel issueID :
  respondToIssueMentioned channel issueID =
    defer_recover
      (fun e =>
         log_Printf "Exception responding to issue %s: %v"
           [Str issueID; Str e])
      (respond_body channel issueID).
Proof. reflexivity. Qed.

Lemma filter_bool_cons {A} (f : A → bool) x (l : list A) :
  filter f (x :: l) = if f x then x :: filter f l else filter f l.
Proof. rewrite filter_cons. by destruct (f x). Qed.

Ltac count_events :=
  unfold posts, replies, failures;
  rewrite ?filter_bool_cons, ?filter_nil; simpl; first [done | lia].

(** What one run of the body adds to the trace: when it returns, a fetch
    that gave a ticket and the post of the formatted ticket; when it
    panics, no reply. *)
Lemma respond_body_spec channel issueID w :
  ∃ r w' new,
    respond_body channel issueID w = (r, w') ∧
    w_trace w' = w_trace w ++ new ∧
    w_env w' = w_env w ∧
    length (posts new) ≤ 1 ∧
    match r with
    | Panic _ => replies new = [] ∧ failures new = []
    | Ret _ =>
        ∃ jira issue api text params res,
          new = [Fetched jira issueID (Ret issue);
                 Posted api channel text params (Ret res)] ∧
          fst (formatMessage issue w) = Ret text
    end.
Proof.
  unfold respond_body.
  rewrite (bind_ret _ _ _ _ _ (getSlackAPI_run w)).
  rewrite (bind_ret _ _ _ _ _ (getConfig_run w)).
  unfold bind at 1. rewrite getJiraIssue_run. unfold Jira_Issue.
  destruct (jira_Issue _ issueID (w_net w)) as [[issue|v] n] eqn:Hfetch.
  2:{ eexists _, _, [_]. do 3 (split; [reflexivity |]).
      split; [|split]; count_events. }
  destruct (IssueFields.Assignee (Issue.Fields issue)) as [a|] eqn:Ha.
  2:{ rewrite (bind_panic _ _ _ _ _ (formatMessage_unassigned _ _ Ha)).
      eexists _, _, [_]. do 3 (split; [reflexivity |]).
      split; [|split]; count_events. }
  rewrite (bind_ret _ _ _ _ _ (formatMessage_assigned _ _ _ Ha)).
  unfold bind, Client_PostMessage. cbn [w_net w_env w_trace].
  destruct (slack_PostMessage _ channel _ _ n) as [[res|v] n'].
  - eexists _, _, [_; _]. cbn [w_trace w_env]. rewrite <- app_assoc.
    do 3 (split; [reflexivity |]).
    split; [count_events |].
    eexists _, _, _, _, _, _. split; [reflexivity |].
    by rewrite (formatMessage_assigned _ _ _ Ha).
  - eexists _, _, [_; _]. cbn [w_trace w_env]. rewrite <- app_assoc.
    do 3 (split; [reflexivity |]).
    split; [|split]; count_events.
Qed.



(** ** The dispatch loop *)






(** ** The message filter *)

(** C5: shouldIgnoreMessage returns true, so that the message is not
    processed, exactly when the message's Username is the bot's display
    name or its SubType is "bot_message", whatever the other fields are;
    it returns in every world and leaves the world as it was. *)
Theorem filter_decision :
  ∀ (message : Msg.t) (w : World), ∃ ignore,
    shouldIgnoreMessage message w = (Ret ignore, w) ∧
    BotConfig.Username (config_of (w_env w)) = "JiraBot" ∧
    (ignore = true ↔
       Msg.Username message = BotConfig.Username (config_of (w_env w)) ∨
       Msg.SubType message = "bot_message") ∧
    (ignore = false ↔
       ¬ (Msg.Username message = BotConfig.Username (config_of (w_env w)) ∨
          Msg.SubType message = "bot_message")).
Proof.
  intros message w. eexists. split; [apply shouldIgnoreMessage_run |].
  split; [done |]. cbn [config_of BotConfig.Username].
  rewrite <- not_true_iff_false.
  rewrite orb_true_iff, !bool_decide_eq_true. done.
Qed.

(** C9: two messages with the same Username and the same SubType get the
    same decision of the filter, in the same world, whatever their other
    fields are. *)
Theorem filter_depends_on_author_and_subtype (m1 m2 : Msg.t) (w : World) :
  Msg.Username m1 = Msg.Username m2 →
  Msg.SubType m1 = Msg.SubType m2 →
  shouldIgnoreMessage m1 w = shouldIgnoreMessage m2 w.
Proof.
  intros Hu Hs. rewrite !shouldIgnoreMessage_run. by rewrite Hu, Hs.
Qed.

(** ** The reply formatter *)

(** C6, as amended: formatMessage returns a string, changing nothing, for
    every ticket whose assignee is present; on a ticket whose assignee is
    nil it panics with the nil dereference of the runtime. *)
Theorem format_assignee_cases :
  ∀ (issue : Issue.t) (w : World),
    match IssueFields.Assignee (Issue.Fields issue) with
    | Some _ => ∃ text, formatMessage issue w = (Ret text, w)
    | None => formatMessage issue w = (Panic nil_dereference, w)
    end.
Proof.
  intros issue w.
  destruct (IssueFields.Assignee (Issue.Fields issue)) as [a|] eqn:Ha.
  - eexists. by apply formatMessage_assigned.
  - by apply formatMessage_unassigned.
Qed.

Lemma contains_intro (before sub after s : string) :
  s = before +:+ sub +:+ after → contains s sub.
Proof. intros ->. by exists before, after. Qed.

Ltac string_eq :=
  repeat (progress (rewrite ?append_assoc, ?append_nil_r; simpl));
  reflexivity.

(** C7, as amended: for every ticket whose assignee is present,
    formatMessage returns three texts joined by two line feeds.  The first
    holds the browse URL, which is the tracker's base URL, "/browse/" and
    the key, then the key, the status name and the summary; the second
    holds the display names of the reporter and of the assignee; the third
    holds the date token with the epoch seconds of the creation and the
    creation string of the tracker.  These are exactly the three lines of
    the reply when none of the texts put in has a line feed. *)
Theorem format_three_lines (issue : Issue.t) (assignee : JiraUser.t)
    (w : World) :
  IssueFields.Assignee (Issue.Fields issue) = Some assignee →
  let base := BotConfig.JiraBaseURL (config_of (w_env w)) in
  let fields := Issue.Fields issue in
  let l1 := link_line base issue in
  let l2 := people_line issue assignee in
  let l3 := date_line issue in
  formatMessage issue w = (Ret (l1 +:+ LF +:+ l2 +:+ LF +:+ l3), w) ∧
  fst (getJiraURL (Issue.Key issue) w) =
    Ret (base +:+ "/browse/" +:+ Issue.Key issue) ∧
  contains l1 ("<" +:+ (base +:+ "/browse/" +:+ Issue.Key issue) +:+ "|"
               +:+ Issue.Key issue +:+ ">") ∧
  contains l1 ("*Status:* " +:+ IssueStatus.Name (IssueFields.Status fields)) ∧
  contains l1 ("*Summary:* " +:+ IssueFields.Summary fields) ∧
  contains l2 ("*Creator:* " +:+
               JiraUser.DisplayName (IssueFields.Reporter fields)) ∧
  contains l2 ("*Assignee:* " +:+ JiraUser.DisplayName assignee) ∧
  contains l3 ("<!date^" +:+ fmt_d (Time.Unix (Issue.CreatedAt issue)) +:+
               "^{date} at {time}|" +:+ IssueFields.Created fields +:+ ">") ∧
  (one_line base → one_line (Issue.Key issue) →
   one_line (IssueStatus.Name (IssueFields.Status fields)) →
   one_line (IssueFields.Summary fields) →
   one_line (JiraUser.DisplayName (IssueFields.Reporter fields)) →
   one_line (JiraUser.DisplayName assignee) →
   one_line (IssueFields.Created fields) →
   lines (l1 +:+ LF +:+ l2 +:+ LF +:+ l3) = [l1; l2; l3]).
Proof.
  intros Ha base fields l1 l2 l3.
  split; [by apply formatMessage_assigned |].
  split; [done |].
  split.
  { apply (contains_intro "> " _
      (" :traffic_light: *Status:* " +:+
       IssueStatus.Name (IssueFields.Status fields) +:+
       " :memo: *Summary:* " +:+ IssueFields.Summary fields)).
    unfold l1, link_line. fold fields. string_eq. }
  split.
  { apply (contains_intro
      ("> <" +:+ (base +:+ "/browse/" +:+ Issue.Key issue) +:+ "|" +:+
       Issue.Key issue +:+ "> :traffic_light: ") _
      (" :memo: *Summary:* " +:+ IssueFields.Summary fields)).
    unfold l1, link_line. fold fields. string_eq. }
  split.
  { apply (contains_intro
      ("> <" +:+ (base +:+ "/browse/" +:+ Issue.Key issue) +:+ "|" +:+
       Issue.Key issue +:+ "> :traffic_light: *Status:* " +:+
       IssueStatus.Name (IssueFields.Status fields) +:+ " :memo: ") _ "").
    unfold l1, link_line. fold fields. string_eq. }
  split.
  { apply (contains_intro "> :bust_in_silhouette: " _
      (", *Assignee:* " +:+ JiraUser.DisplayName assignee)).
    unfold l2, people_line. fold fields. string_eq. }
  split.
  { apply (contains_intro
      ("> :bust_in_silhouette: *Creator:* " +:+
       JiraUser.DisplayName (IssueFields.Reporter fields) +:+ ", ") _ "").
    unfold l2, people_line. fold fields. string_eq. }
  split.
  { apply (contains_intro "> :calendar: *Created:* " _ "").
    unfold l3, date_line. fold fields. string_eq. }
  intros Hbase Hkey Hstatus Hsummary Hreporter Hassignee Hcreated.
  assert (one_line l1) as H1.
  { unfold l1, link_line.
    repeat (apply one_line_app; [try done |]); done. }
  assert (one_line l2) as H2.
  { unfold l2, people_line. repeat (apply one_line_app; [try done |]); done. }
  assert (one_line l3) as H3.
  { unfold l3, date_line.
    repeat (apply one_line_app; [try done; apply fmt_d_one_line |]); done. }
  rewrite (lines_app_LF l1) by done.
  rewrite (lines_app_LF l2) by done.
  by rewrite (lines_one_line l3).
Qed.

(** ** Replies and failures *)

Lemma last_two {A} (l : list A) a b : last (l ++ [a; b]) = Some b.
Proof.
  replace (l ++ [a; b]) with ((l ++ [a]) ++ [b]) by (by rewrite <- app_assoc).
  apply last_snoc.
Qed.

Lemma respond_body_panic channel issueID w v w' :
  respond_body channel issueID w = (Panic v, w') →
  ∃ new, w_trace w' = w_trace w ++ new ∧ replies new = [].
Proof.
  intros H.
  destruct (respond_body_spec channel issueID w)
    as (r & w1 & new & Hrun & Htr & _ & _ & Hcase).
  rewrite H in Hrun. injection Hrun as <- <-.
  exists new. by destruct Hcase.
Qed.

Lemma respond_body_ret channel issueID w w' :
  respond_body channel issueID w = (Ret tt, w') →
  ∃ jira issue api text params res,
    w_trace w' = w_trace w ++
      [Fetched jira issueID (Ret issue);
       Posted api channel text params (Ret res)] ∧
    fst (formatMessage issue w) = Ret text.
Proof.
  intros H.
  destruct (respond_body_spec channel issueID w)
    as (r & w1 & new & Hrun & Htr & _ & _ & Hcase).
  rewrite H in Hrun. injection Hrun as <- <-.
  destruct Hcase as (jira & issue & api & text & params & res & -> & Hfmt).
  by exists jira, issue, api, text, params, res.
Qed.

(** The three places where the processing of an identifier can panic. *)

Lemma respond_body_fetch_panic channel issueID w jira v n :
  jira = Jira.mk (BotConfig.JiraBaseURL (config_of (w_env w)))
           "/rest/api/latest" ""
           (Auth.mk (BotConfig.JiraUsername (config_of (w_env w)))
                    (BotConfig.JiraPassword (config_of (w_env w)))) →
  jira_Issue jira issueID (w_net w) = (Panic v, n) →
  respond_body channel issueID w =
    (Panic v,
     mkWorld (w_env w) n (w_trace w ++ [Fetched jira issueID (Panic v)])).
Proof.
  intros -> Hfetch. unfold respond_body.
  rewrite (bind_ret _ _ _ _ _ (getSlackAPI_run w)).
  rewrite (bind_ret _ _ _ _ _ (getConfig_run w)).
  apply bind_panic. rewrite getJiraIssue_run. unfold Jira_Issue.
  by rewrite Hfetch.
Qed.

Lemma respond_body_format_panic channel issueID w jira issue n :
  jira = Jira.mk (BotConfig.JiraBaseURL (config_of (w_env w)))
           "/rest/api/latest" ""
           (Auth.mk (BotConfig.JiraUsername (config_of (w_env w)))
                    (BotConfig.JiraPassword (config_of (w_env w)))) →
  jira_Issue jira issueID (w_net w) = (Ret issue, n) →
  IssueFields.Assignee (Issue.Fields issue) = None →
  respond_body channel issueID w =
    (Panic nil_dereference,
     mkWorld (w_env w) n (w_trace w ++ [Fetched jira issueID (Ret issue)])).
Proof.
  intros -> Hfetch Ha. unfold respond_body.
  rewrite (bind_ret _ _ _ _ _ (getSlackAPI_run w)).
  rewrite (bind_ret _ _ _ _ _ (getConfig_run w)).
  erewrite bind_ret;
    [|rewrite getJiraIssue_run; unfold Jira_Issue; by rewrite Hfetch].
  apply bind_panic. by apply formatMessage_unassigned.
Qed.

Lemma respond_body_send_panic channel issueID w jira issue a api params n v n' :
  jira = Jira.mk (BotConfig.JiraBaseURL (config_of (w_env w)))
           "/rest/api/latest" ""
           (Auth.mk (BotConfig.JiraUsername (config_of (w_env w)))
                    (BotConfig.JiraPassword (config_of (w_env w)))) →
  api = slack_New (BotConfig.SlackAPIKey (config_of (w_env w))) →
  params = PostMessageParameters.mk "JiraBot" true →
  jira_Issue jira issueID (w_net w) = (Ret issue, n) →
  IssueFields.Assignee (Issue.Fields issue) = Some a →
  let text := link_line (BotConfig.JiraBaseURL (config_of (w_env w))) issue
              +:+ LF +:+ people_line issue a +:+ LF +:+ date_line issue in
  slack_PostMessage api channel text params n = (Panic v, n') →
  respond_body channel issueID w =
    (Panic v,
     mkWorld (w_env w) n'
       (w_trace w ++ [Fetched jira issueID (Ret issue);
                      Posted api channel text params (Panic v)])).
Proof.
  intros -> -> -> Hfetch Ha text Hsend. unfold respond_body.
  rewrite (bind_ret _ _ _ _ _ (getSlackAPI_run w)).
  rewrite (bind_ret _ _ _ _ _ (getConfig_run w)).
  erewrite bind_ret;
    [|rewrite getJiraIssue_run; unfold Jira_Issue; by rewrite Hfetch].
  erewrite bind_ret; [|by apply formatMessage_assigned].
  apply bind_panic. unfold Client_PostMessage. cbn [w_net w_env w_trace].
  fold text. cbn [config_of BotConfig.Username].
  rewrite Hsend. by rewrite <- app_assoc.
Qed.

(** C2, as amended: let a message that passes the filter have the
    identifiers [A; B].  If the processing of A panics, in the fetch, the
    formatting or the send, and the processing of B then succeeds, the
    panic of A is recovered inside respondToIssueMentioned and logged with
    the identifier, handleIncomingMessage returns normally, B is processed
    as it is on its own in the world A left, and the only reply added is
    the post of the ticket fetched for B. *)
Theorem isolation_of_a_panicking_identifier (message : Msg.t) (w : World)
    (A B v : string) (wA' wB' : World) :
  fst (shouldIgnoreMessage message w) = Ret false →
  extractIssueIDs (Msg.Text message) = Some [A; B] →
  let channel := Msg.Channel message in
  let wA := emit (Logged (identified_line A)) w in
  let wB := emit (Logged (identified_line B))
              (emit (Logged (exception_line A v)) wA') in
  respond_body channel A wA = (Panic v, wA') →
  succeeds channel B wB wB' →
  handleIncomingMessage message w = (Ret tt, wB') ∧
  respondToIssueMentioned channel A wA =
    (Ret tt, emit (Logged (exception_line A v)) wA') ∧
  respondToIssueMentioned channel B wB = (Ret tt, wB') ∧
  ∃ newA jira issue api text params ch ts,
    w_trace wB' =
      w_trace w ++ Logged (identified_line A) :: newA ++
        [Logged (exception_line A v); Logged (identified_line B);
         Fetched jira B (Ret issue);
         Posted api channel text params (Ret (ch, ts, None))] ∧
    replies newA = [] ∧
    fst (formatMessage issue wB) = Ret text ∧
    replies (w_trace wB') =
      replies (w_trace w) ++
        [Posted api channel text params (Ret (ch, ts, None))].
Proof.
  intros Hpass Hids channel wA wB HA [HB (e & Hlast & He)].
  assert (respondToIssueMentioned channel A wA =
            (Ret tt, emit (Logged (exception_line A v)) wA')) as HrA.
  { rewrite respondToIssueMentioned_body. unfold defer_recover.
    rewrite HA. unfold log_Printf, log_Print.
    by rewrite exception_line_run. }
  assert (respondToIssueMentioned channel B wB = (Ret tt, wB')) as HrB.
  { rewrite respondToIssueMentioned_body. unfold defer_recover.
    by rewrite HB. }
  split.
  { unfold handleIncomingMessage.
    rewrite (bind_ret _ _ _ _ _ (shouldIgnoreMessage_run message w)).
    rewrite shouldIgnoreMessage_run in Hpass. cbn [fst] in Hpass.
    injection Hpass as ->. rewrite Hids.
    cbn [elems default from_option id for_each].
    erewrite bind_ret;
      [|erewrite bind_ret; [exact HrA | reflexivity]].
    erewrite bind_ret;
      [|erewrite bind_ret; [exact HrB | reflexivity]].
    reflexivity. }
  split; [done |]. split; [done |].
  destruct (respond_body_panic _ _ _ _ _ HA) as (newA & HtrA & HrepA).
  destruct (respond_body_ret _ _ _ _ HB)
    as (jira & issue & api & text & params & res & HtrB & Hfmt).
  assert (∃ ch ts, res = (ch, ts, None)) as (ch & ts & ->).
  { rewrite HtrB in Hlast.
    rewrite last_two in Hlast.
    injection Hlast as <-. destruct res as [[ch ts] [err|]]; [done |].
    by exists ch, ts. }
  exists newA, jira, issue, api, text, params, ch, ts.
  assert (w_trace wB' =
            w_trace w ++ Logged (identified_line A) :: newA ++
              [Logged (exception_line A v); Logged (identified_line B);
               Fetched jira B (Ret issue);
               Posted api channel text params (Ret (ch, ts, None))]) as Htr.
  { rewrite HtrB. unfold wB, emit. cbn [w_trace]. rewrite HtrA.
    unfold wA, emit. cbn [w_trace]. rewrite <- !app_assoc. reflexivity. }
  split; [done |]. split; [done |]. split; [done |].
  rewrite Htr. unfold replies in *.
  rewrite filter_app, filter_bool_cons. cbn [is_reply].
  rewrite filter_app, HrepA, !filter_bool_cons, filter_nil. reflexivity.
Qed.

(** ** The configuration *)


End Dispatch.

(** ** The program on the sample collaborators *)

(** C1, as stated, fails: the tracker cannot be reached for "BAD-1"; the
    message passes the filter and has one identifier, and no reply is
    posted for it. *)
Lemma one_reply_per_identifier_counterexample :
  fst (shouldIgnoreMessage (sample_msg "what about BAD-1?") steady_start)
    = Ret false ∧
  extractIssueIDs (Msg.Text (sample_msg "what about BAD-1?"))
    = Some ["BAD-1"] ∧
  fst (handleIncomingMessage (sample_msg "what about BAD-1?") steady_start)
    = Ret tt ∧
  posts (w_trace
           (snd (handleIncomingMessage (sample_msg "what about BAD-1?")
                   steady_start))) = [] ∧
  logged (w_trace
            (snd (handleIncomingMessage (sample_msg "what about BAD-1?")
                    steady_start))) =
    ["handleMessage: Identified BAD-1 in message";
     "Exception responding to issue BAD-1: dial tcp: connection refused"].
Proof. repeat split; by vm_compute. Qed.

Lemma isolation_of_a_panicking_identifier_witness :
  fst (shouldIgnoreMessage (sample_msg "BAD-1 blocks PROJ-42") steady_start)
    = Ret false ∧
  extractIssueIDs (Msg.Text (sample_msg "BAD-1 blocks PROJ-42"))
    = Some ["BAD-1"; "PROJ-42"] ∧
  handleIncomingMessage (sample_msg "BAD-1 blocks PROJ-42") steady_start =
    (Ret tt,
     snd (respond_body "C024BE91L" "PROJ-42"
            (emit (Logged (identified_line "PROJ-42"))
               (emit (Logged (exception_line "BAD-1"
                                "dial tcp: connection refused"))
                  (snd (respond_body "C024BE91L" "BAD-1"
                          (emit (Logged (identified_line "BAD-1"))
                             steady_start))))))).
Proof.
  split; [reflexivity |]. split; [by vm_compute |].
  refine (proj1 (isolation_of_a_panicking_identifier (Collab := steady)
                   (sample_msg "BAD-1 blocks PROJ-42") steady_start
                   "BAD-1" "PROJ-42" "dial tcp: connection refused"
                   _ _ _ _ _ _)).
  - reflexivity.
  - by vm_compute.
  - by vm_compute.
  - split; [by vm_compute |]. eexists. split; by vm_compute.
Defined.

(** C2, as stated, fails: the transport answers the send for "A-1" with
    an error and accepts the one for "B-2".  The dispatch returns and one
    reply is accepted, but the log has no line for the failure of "A-1":
    the error PostMessage returns is dropped. *)
Lemma send_error_not_logged_counterexample :
  extractIssueIDs (Msg.Text (sample_msg "A-1 and B-2")) = Some ["A-1"; "B-2"] ∧
  fst (handleIncomingMessage (sample_msg "A-1 and B-2") flaky_start)
    = Ret tt ∧
  send_error <$>
    posts (w_trace
             (snd (handleIncomingMessage (sample_msg "A-1 and B-2")
                     flaky_start))) = [Some "rate_limited"; None] ∧
  length (replies (w_trace
             (snd (handleIncomingMessage (sample_msg "A-1 and B-2")
                     flaky_start)))) = 1 ∧
  logged (w_trace
            (snd (handleIncomingMessage (sample_msg "A-1 and B-2")
                    flaky_start))) =
    ["handleMessage: Identified A-1 in message";
     "handleMessage: Identified B-2 in message"].
Proof. repeat split; by vm_compute. Qed.

(** C6, as stated, fails: on a ticket without assignee formatMessage
    panics. *)
Lemma format_nil_assignee_counterexample :
  IssueFields.Assignee (Issue.Fields (sample_issue "NOBODY-7" None)) = None ∧
  formatMessage (sample_issue "NOBODY-7" None) steady_start =
    (Panic "runtime error: invalid memory address or nil pointer dereference",
     steady_start).
Proof. split; by vm_compute. Qed.

Lemma format_three_lines_witness :
  IssueFields.Assignee
    (Issue.Fields (sample_issue "PROJ-42" (Some (JiraUser.mk "Bob"))))
    = Some (JiraUser.mk "Bob") ∧
  fst (formatMessage (sample_issue "PROJ-42" (Some (JiraUser.mk "Bob")))
         steady_start) =
    Ret ("> <https://jira.example.org/browse/PROJ-42|PROJ-42> :traffic_light: *Status:* Open :memo: *Summary:* Login page times out"
         +:+ LF +:+
         "> :bust_in_silhouette: *Creator:* Alice, *Assignee:* Bob"
         +:+ LF +:+
         "> :calendar: *Created:* <!date^1456826400^{date} at {time}|2016-03-01T10:00:00.000+0000>").
Proof.
  split; [reflexivity |].
  rewrite (proj1 (format_three_lines (Collab := steady)
                    (sample_issue "PROJ-42" (Some (JiraUser.mk "Bob")))
                    (JiraUser.mk "Bob") steady_start eq_refl)).
  by vm_compute.
Defined.

(** C7, as stated, fails on two tickets: without assignee formatMessage
    panics and gives no line; with a line feed in the summary the reply
    has four lines. *)
Lemma format_three_lines_counterexample :
  fst (formatMessage (sample_issue "NOBODY-7" None) steady_start) =
    Panic nil_dereference ∧
  ∃ text, fst (formatMessage two_line_issue steady_start) = Ret text ∧
          length (lines text) = 4.
Proof.
  split; [by vm_compute |]. eexists. split; by vm_compute.
Qed.

Lemma filter_depends_on_author_and_subtype_witness :
  Msg.Username (sample_msg "see ABC-1") =
    Msg.Username (Msg.mk "message" "D0PNCRP9N" "U999" "nothing to see"
                    "1456826777.000100" "" "alice" "B7") ∧
  Msg.SubType (sample_msg "see ABC-1") =
    Msg.SubType (Msg.mk "message" "D0PNCRP9N" "U999" "nothing to see"
                   "1456826777.000100" "" "alice" "B7") ∧
  shouldIgnoreMessage (sample_msg "see ABC-1") steady_start =
    shouldIgnoreMessage (Msg.mk "message" "D0PNCRP9N" "U999" "nothing to see"
                           "1456826777.000100" "" "alice" "B7") steady_start.
Proof.
  split; [reflexivity |]. split; [reflexivity |].
  apply (filter_depends_on_author_and_subtype (Collab := steady));
    reflexivity.
Defined.


Lemma extract_dedup_first_occurrence_witness :
  ∃ a b, a < b ∧
    first_at (upper_matches "see ABC-1 and abc-1 and DEF-2") a "ABC-1" ∧
    first_at (upper_matches "see ABC-1 and abc-1 and DEF-2") b "DEF-2".
Proof.
  destruct (proj1 extract_dedup_first_occurrence
              "see ABC-1 and abc-1 and DEF-2")
    as (ids & Hids & _ & _ & Hord).
  assert (ids = ["ABC-1"; "DEF-2"]) as ->
    by (vm_compute in Hids; by injection Hids).
  apply (Hord 0 1); [lia | reflexivity | reflexivity].
Defined.

(** ** The extractor and the dispatch on sample texts *)

Example extract_no_match :
  extractIssueIDs "" = Some [] ∧ extractIssueIDs "hello world" = Some [].
Proof. split; by vm_compute. Qed.

Example extract_inside_sentence :
  extractIssueIDs "see ABC-123!" = Some ["ABC-123"].
Proof. by vm_compute. Qed.

(** The digits cannot end before a word character, and no shorter run of
    digits ends at a word boundary either. *)
Example extract_flanked_digits :
  extractIssueIDs "XABC-1234X" = Some [] ∧ extractIssueIDs "ABC-12x" = Some [].
Proof. split; by vm_compute. Qed.

(** Matches do not overlap: after "ABC-1" the scan goes on at "-2". *)
Example extract_no_overlap : extractIssueIDs "ABC-1-2" = Some ["ABC-1"].
Proof. by vm_compute. Qed.

Example extract_underscore_and_digits :
  extractIssueIDs "x_1-22,y-3 and X_1-22" = Some ["X_1-22"; "Y-3"].
Proof. by vm_compute. Qed.

(** A message of the bot itself, and one of another bot, are ignored. *)
Example ignore_own_and_automated_messages :
  logged (w_trace
            (snd (handleIncomingMessage
                    (Msg.mk "message" "C024BE91L" "U1" "done: PROJ-42"
                       "1456826401.000007" "" "JiraBot" "")
                    steady_start))) = ["handleMessage: Ignoring message"] ∧
  w_trace
    (snd (handleIncomingMessage
            (Msg.mk "message" "C024BE91L" "U1" "build of PROJ-42 failed"
               "1456826402.000008" "bot_message" "jenkins" "B1")
            steady_start)) = [Logged "handleMessage: Ignoring message"].
Proof. split; by vm_compute. Qed.

(** One identifier, one fetch, one reply to the channel of the message. *)
Example reply_to_one_mention :
  w_trace (snd (handleIncomingMessage (sample_msg "check PROJ-42 please")
                  steady_start)) =
    [Logged "handleMessage: Identified PROJ-42 in message";
     Fetched
       (Jira.mk "https://jira.example.org" "/rest/api/latest" ""
          (Auth.mk "" ""))
       "PROJ-42" (Ret (sample_issue "PROJ-42" (Some (JiraUser.mk "Bob"))));
     Posted (Client.mk "xoxb-1") "C024BE91L"
       ("> <https://jira.example.org/browse/PROJ-42|PROJ-42> :traffic_light: *Status:* Open :memo: *Summary:* Login page times out"
        +:+ LF +:+
        "> :bust_in_silhouette: *Creator:* Alice, *Assignee:* Bob"
        +:+ LF +:+
        "> :calendar: *Created:* <!date^1456826400^{date} at {time}|2016-03-01T10:00:00.000+0000>")
       (PostMessageParameters.mk "JiraBot" true)
       (Ret ("C024BE91L", "1456826400.000001", None))].
Proof. by vm_compute. Qed.

(** * Further properties of the dispatch *)

Section Trace.
Context `{Collab : Collaborators}.

Lemma getJiraIssue_fetch issueID w r n :
  jira_Issue (jira_of (w_env w)) issueID (w_net w) = (r, n) →
  getJiraIssue issueID w =
    (r, mkWorld (w_env w) n
          (w_trace w ++ [Fetched (jira_of (w_env w)) issueID r])).
Proof.
  intros H. rewrite getJiraIssue_run. unfold Jira_Issue.
  fold (jira_of (w_env w)). by rewrite H.
Qed.

(** The four ways through the body of respondToIssueMentioned. *)
Lemma respond_body_trace channel issueID w :
  ∃ r w' tail,
    respond_body channel issueID w = (r, w') ∧
    w_trace w' = w_trace w ++ tail ∧
    w_env w' = w_env w ∧
    match r with
    | Panic v =>
        segment (w_env w) channel issueID
          (Logged (identified_line issueID) :: tail ++
             [Logged (exception_line issueID v)])
    | Ret _ =>
        segment (w_env w) channel issueID
          (Logged (identified_line issueID) :: tail)
    end.
Proof.
  destruct (jira_Issue (jira_of (w_env w)) issueID (w_net w))
    as [[issue|v] n] eqn:Hfetch.
  2:{ eexists (Panic v), _, [_].
      split; [by eapply respond_body_fetch_panic |].
      cbn [w_trace w_env]. do 2 (split; [done |]). constructor. }
  destruct (IssueFields.Assignee (Issue.Fields issue)) as [a|] eqn:Ha.
  2:{ eexists (Panic nil_dereference), _, [_].
      split; [by eapply respond_body_format_panic |].
      cbn [w_trace w_env]. do 2 (split; [done |]). by constructor. }
  destruct (slack_PostMessage (api_of (w_env w)) channel
              (reply_text (w_env w) issue a) bot_params n)
    as [[res|v] n'] eqn:Hsend.
  - eexists (Ret tt), _, [_; _]. split.
    { unfold respond_body.
      rewrite (bind_ret _ _ _ _ _ (getSlackAPI_run w)).
      rewrite (bind_ret _ _ _ _ _ (getConfig_run w)).
      rewrite (bind_ret _ _ _ _ _ (getJiraIssue_fetch _ _ _ _ Hfetch)).
      erewrite bind_ret; [|by apply formatMessage_assigned].
      unfold bind, Client_PostMessage. cbn [w_net w_env w_trace].
      unfold api_of, reply_text, bot_params in Hsend. unfold slack_New.
      cbn [config_of BotConfig.Username BotConfig.SlackAPIKey
           BotConfig.JiraBaseURL] in *.
      rewrite Hsend. unfold ret. by rewrite <- app_assoc. }
    cbn [w_trace w_env]. do 2 (split; [done |]). by constructor.
  - eexists (Panic v), _, [_; _].
    split; [by eapply respond_body_send_panic |].
    cbn [w_trace w_env]. do 2 (split; [done |]). by constructor.
Qed.

Lemma respond_segment channel issueID w :
  ∃ w' seg,
    bind (log_Printf
            ("handleMessage: Identified " +:+ issueID +:+ " in message") [])
         (fun _ => respondToIssueMentioned channel issueID) w
      = (Ret tt, w') ∧
    w_trace w' = w_trace w ++ seg ∧
    w_env w' = w_env w ∧
    segment (w_env w) channel issueID seg.
Proof.
  set (w1 := emit (Logged (identified_line issueID)) w).
  destruct (respond_body_trace channel issueID w1)
    as (r & w2 & tail & Hrun & Htr & Henv & Hseg).
  assert (bind (log_Printf
            ("handleMessage: Identified " +:+ issueID +:+ " in message") [])
            (fun _ => respondToIssueMentioned channel issueID) w =
          respondToIssueMentioned channel issueID w1) as ->
    by reflexivity.
  rewrite respondToIssueMentioned_body. unfold defer_recover. rewrite Hrun.
  destruct r as [[]|v].
  - exists w2, (Logged (identified_line issueID) :: tail).
    split; [done |]. split.
    { rewrite Htr. unfold w1, emit. cbn [w_trace]. by rewrite <- app_assoc. }
    by repeat split.
  - exists (emit (Logged (exception_line issueID v)) w2),
           (Logged (identified_line issueID) :: tail ++
              [Logged (exception_line issueID v)]).
    unfold log_Printf, log_Print. rewrite exception_line_run.
    split; [done |]. split.
    { unfold emit at 1. cbn [w_trace]. rewrite Htr. unfold w1, emit.
      cbn [w_trace]. by rewrite <- !app_assoc. }
    by repeat split.
Qed.

Lemma dispatch_segments channel ids :
  ∀ w, ∃ w' segs,
    for_each ids (fun issueID =>
      log_Printf ("handleMessage: Identified " +:+ issueID +:+ " in message")
        [] ;;;
      respondToIssueMentioned channel issueID) w = (Ret tt, w') ∧
    w_trace w' = w_trace w ++ concat segs ∧
    w_env w' = w_env w ∧
    Forall2 (segment (w_env w) channel) ids segs.
Proof.
  induction ids as [|issueID ids IH]; intros w.
  - exists w, []. simpl. rewrite app_nil_r. by repeat split.
  - destruct (respond_segment channel issueID w)
      as (w1 & seg & Hrun & Htr & Henv & Hseg).
    destruct (IH w1) as (w2 & segs & Hrest & Htr2 & Henv2 & Hsegs).
    exists w2, (seg :: segs). cbn [for_each concat].
    rewrite (bind_ret _ _ _ _ _ Hrun).
    split; [done |]. split; [by rewrite Htr2, Htr, <- app_assoc |].
    split; [congruence |]. constructor; [done |]. by rewrite <- Henv.
Qed.

Lemma handleIncomingMessage_ignored message w :
  ignored message = true →
  handleIncomingMessage message w =
    (Ret tt, emit (Logged "handleMessage: Ignoring message") w).
Proof.
  intros Hig. unfold handleIncomingMessage.
  rewrite (bind_ret _ _ _ _ _ (shouldIgnoreMessage_run message w)).
  unfold ignored in Hig. by rewrite Hig.
Qed.

Lemma handleIncomingMessage_segments message w :
  ignored message = false →
  ∃ w' segs,
    handleIncomingMessage message w = (Ret tt, w') ∧
    w_trace w' = w_trace w ++ concat segs ∧
    w_env w' = w_env w ∧
    Forall2 (segment (w_env w) (Msg.Channel message))
      (elems (extractIssueIDs (Msg.Text message))) segs.
Proof.
  intros Hig. unfold handleIncomingMessage.
  rewrite (bind_ret _ _ _ _ _ (shouldIgnoreMessage_run message w)).
  unfold ignored in Hig. rewrite Hig. apply dispatch_segments.
Qed.

Lemma fetched_app (tr1 tr2 : list event) :
  fetched (tr1 ++ tr2) = fetched tr1 ++ fetched tr2.
Proof. apply omap_app. Qed.

Lemma fetched_segments env channel ids segs :
  Forall2 (segment env channel) ids segs →
  fetched (concat segs) = (λ issueID, (jira_of env, issueID)) <$> ids.
Proof.
  induction 1 as [|issueID seg ids segs Hseg _ IH]; [done |].
  cbn [concat]. rewrite fetched_app, IH, fmap_cons.
  by destruct Hseg.
Qed.

Lemma posts_segments env channel ids segs :
  Forall2 (segment env channel) ids segs →
  Forall (λ e, ∃ issue a r,
            e = Posted (api_of env) channel (reply_text env issue a)
                  bot_params r)
         (posts (concat segs)).
Proof.
  induction 1 as [|issueID seg ids segs Hseg _ IH]; [constructor |].
  cbn [concat]. unfold posts in *. rewrite filter_app.
  apply Forall_app. split; [|done].
  destruct Hseg; rewrite !filter_bool_cons; cbn [is_post];
    rewrite ?filter_nil; repeat constructor; by eexists _, _, _.
Qed.

Lemma count_segments env channel ids segs :
  Forall2 (segment env channel) ids segs →
  length (replies (concat segs)) + length (failures (concat segs)) =
    length ids.
Proof.
  induction 1 as [|issueID seg ids segs Hseg _ IH]; [done |].
  cbn [concat length]. unfold replies, failures in *.
  rewrite !filter_app, !length_app.
  enough (length (filter is_reply seg) + length (filter is_failure seg) = 1)
    by lia.
  destruct Hseg as [v|issue Ha|issue a v Ha|issue a [[ch ts] [err|]] Ha];
    rewrite !filter_bool_cons, ?identified_line_neutral,
      ?exception_line_failure; cbn [is_reply is_failure];
    rewrite ?exception_line_failure, ?filter_nil; reflexivity.
Qed.

Lemma segment_accounting env channel issueID seg :
  segment env channel issueID seg →
  fetched seg = [(jira_of env, issueID)] ∧
  length (posts seg) ≤ 1 ∧
  length (replies seg) + length (failures seg) = 1 ∧
  (∀ v, Fetched (jira_of env) issueID (Panic v) ∈ seg → posts seg = []).
Proof.
  intros Hseg. split; [by destruct Hseg |].
  split.
  { destruct Hseg; unfold posts; rewrite !filter_bool_cons, ?filter_nil;
      cbn [is_post length]; lia. }
  split.
  { unfold replies, failures.
    destruct Hseg as [v|issue Ha|issue a v Ha|issue a [[ch ts] [err|]] Ha];
      rewrite !filter_bool_cons, ?identified_line_neutral,
        ?exception_line_failure; cbn [is_reply is_failure];
      rewrite ?exception_line_failure, ?filter_nil; reflexivity. }
  intros v Hin.
  destruct Hseg; unfold posts; rewrite !filter_bool_cons, ?filter_nil;
    cbn [is_post]; try reflexivity;
    repeat (apply elem_of_cons in Hin as [Hin|Hin]; [discriminate Hin |]);
    by apply elem_of_nil in Hin.
Qed.

(** C1, as amended: a message that passes the filter adds to the trace
    one sequence of events for each identifier of the deduplicated
    sequence, in their order.  The sequence of an identifier holds the
    fetch of that identifier and no other fetch, at most one call of
    PostMessage, which posts the ticket fetched for that identifier, and
    exactly one of a reply the transport accepted and a failure (a panic of
    the fetch, of the formatting or of the send, recovered and logged, or
    an error returned by the send); when the fetch of the identifier
    panics, PostMessage is not called for it.  So the replies and the
    failed identifiers add up to the size of the identifier sequence, and
    there are at most as many calls of PostMessage. *)
Theorem replies_and_failures_per_identifier (message : Msg.t) (w : World) :
  fst (shouldIgnoreMessage message w) = Ret false →
  ∃ w' segs,
    handleIncomingMessage message w = (Ret tt, w') ∧
    w_trace w' = w_trace w ++ concat segs ∧
    Forall2
      (λ issueID seg,
         segment (w_env w) (Msg.Channel message) issueID seg ∧
         fetched seg = [(jira_of (w_env w), issueID)] ∧
         length (posts seg) ≤ 1 ∧
         length (replies seg) + length (failures seg) = 1 ∧
         (∀ v, Fetched (jira_of (w_env w)) issueID (Panic v) ∈ seg →
               posts seg = []))
      (elems (extractIssueIDs (Msg.Text message))) segs ∧
    length (posts (concat segs)) ≤
      len (extractIssueIDs (Msg.Text message)) ∧
    length (replies (concat segs)) + length (failures (concat segs)) =
      len (extractIssueIDs (Msg.Text message)).
Proof.
  intros Hpass. rewrite shouldIgnoreMessage_run in Hpass.
  cbn [fst] in Hpass. injection Hpass as Hig. fold (ignored message) in Hig.
  destruct (handleIncomingMessage_segments message w Hig)
    as (w' & segs & Hrun & Htr & _ & Hsegs).
  exists w', segs. split; [done |]. split; [done |].
  split.
  { eapply Forall2_impl; [exact Hsegs |].
    intros issueID seg Hseg. split; [done |].
    exact (segment_accounting _ _ _ _ Hseg). }
  unfold len. split; [|exact (count_segments _ _ _ _ Hsegs)].
  clear Hrun Htr.
  induction Hsegs as [|issueID seg ids segs Hseg _ IH]; [done |].
  cbn [concat length]. unfold posts in *. rewrite filter_app, length_app.
  destruct (segment_accounting _ _ _ _ Hseg) as (_ & Hp & _).
  unfold posts in Hp. lia.
Qed.

(** X1: what a message that passes the filter adds to the trace is, for
    each of its identifiers in order, one of four sequences: the line that
    identifies it and its fetch, followed by the line of the recovered
    panic (the fetch panicked, or the ticket has no assignee), or by the
    post of the formatted ticket to the channel of the message, or by that
    post and the line of the panic it raised. *)
Theorem trace_of_a_message (message : Msg.t) (w : World) :
  ignored message = false →
  ∃ w' segs,
    handleIncomingMessage message w = (Ret tt, w') ∧
    w_trace w' = w_trace w ++ concat segs ∧
    Forall2 (segment (w_env w) (Msg.Channel message))
      (elems (extractIssueIDs (Msg.Text message))) segs.
Proof.
  intros Hig.
  destruct (handleIncomingMessage_segments message w Hig)
    as (w' & segs & Hrun & Htr & _ & Hsegs).
  by exists w', segs.
Qed.

(** X2: a message whose Username is "JiraBot" or whose SubType is
    "bot_message" has one effect only, the line "handleMessage: Ignoring
    message" in the log: whatever its text mentions, the tracker and the
    transport are not called. *)
Theorem ignored_message_only_logs (message : Msg.t) (w : World) :
  Msg.Username message = "JiraBot" ∨ Msg.SubType message = "bot_message" →
  handleIncomingMessage message w =
    (Ret tt,
     mkWorld (w_env w) (w_net w)
       (w_trace w ++ [Logged "handleMessage: Ignoring message"])).
Proof.
  intros H. apply handleIncomingMessage_ignored. unfold ignored.
  apply orb_true_iff. rewrite !bool_decide_eq_true. done.
Qed.

(** X3: for a message that passes the filter the tracker is called once
    for each identifier of the message, in their order and for nothing
    else, each time with the handle made of the environment's base URL and
    credentials and the path "/rest/api/latest"; no identifier is fetched
    twice. *)
Theorem one_fetch_per_identifier (message : Msg.t) (w : World) :
  ignored message = false →
  ∃ w' new,
    handleIncomingMessage message w = (Ret tt, w') ∧
    w_trace w' = w_trace w ++ new ∧
    fetched new =
      (λ issueID, (jira_of (w_env w), issueID)) <$>
        elems (extractIssueIDs (Msg.Text message)) ∧
    NoDup (fetched new).
Proof.
  intros Hig.
  destruct (handleIncomingMessage_segments message w Hig)
    as (w' & segs & Hrun & Htr & _ & Hsegs).
  exists w', (concat segs). split; [done |]. split; [done |].
  rewrite (fetched_segments _ _ _ _ Hsegs). split; [done |].
  apply NoDup_fmap_2; [by intros x y [=] |].
  destruct (extractIssueIDs_spec (Msg.Text message)) as (ids & -> & Hnd & _).
  done.
Qed.

(** X4: every call of PostMessage made for a message goes to the channel
    of that message, with the client made of the environment's
    SLACK_API_KEY, the user name "JiraBot" and Markdown set, and its text
    is the three lines of a ticket. *)
Theorem posts_go_to_the_channel (message : Msg.t) (w : World) :
  ∃ w' new,
    handleIncomingMessage message w = (Ret tt, w') ∧
    w_trace w' = w_trace w ++ new ∧
    Forall (λ e, ∃ issue a r,
              e = Posted (api_of (w_env w)) (Msg.Channel message)
                    (reply_text (w_env w) issue a) bot_params r)
           (posts new).
Proof.
  destruct (ignored message) eqn:Hig.
  - eexists _, [_]. split; [by apply handleIncomingMessage_ignored |].
    split; [done |]. constructor.
  - destruct (handleIncomingMessage_segments message w Hig)
      as (w' & segs & Hrun & Htr & _ & Hsegs).
    exists w', (concat segs). split; [done |]. split; [done |].
    by eapply posts_segments.
Qed.

Lemma handle_event_mentions ev w :
  ∃ w' new,
    handle_event ev w = (Ret tt, w') ∧
    w_trace w' = w_trace w ++ new ∧
    w_env w' = w_env w ∧
    (fetched new).*2 = mentions ev ∧
    length (replies new) + length (failures new) = length (mentions ev).
Proof.
  destruct ev as [msg|value|err| |]; cbn [handle_event mentions].
  - destruct (ignored msg) eqn:Hig.
    + eexists _, [_]. split; [by apply handleIncomingMessage_ignored |].
      by repeat split.
    + destruct (handleIncomingMessage_segments msg w Hig)
        as (w' & segs & Hrun & Htr & Henv & Hsegs).
      exists w', (concat segs). do 3 (split; [done |]).
      split; [|by eapply count_segments].
      rewrite (fetched_segments _ _ _ _ Hsegs), <- list_fmap_compose.
      apply list_fmap_id.
  - eexists _, [_]. by repeat split.
  - eexists _, [_]. by repeat split.
  - eexists _, [_]. by repeat split.
  - exists w, []. rewrite app_nil_r. by repeat split.
Qed.

(** X5: over any events and with any tracker and transport, main returns
    normally.  After the line "main: Now listening for events", the
    identifiers it fetches are those of the messages that pass the filter,
    message after message, and each of them ends as a reply the transport
    accepted or as a failure (a recovered panic or an error of the
    send). *)
Theorem main_accounts_for_every_mention (events : list RTMEvent) (w : World) :
  ∃ w' new,
    main events w = (Ret tt, w') ∧
    w_trace w' =
      w_trace w ++ Logged "main: Now listening for events" :: new ∧
    (fetched new).*2 = concat (mentions <$> events) ∧
    length (replies new) + length (failures new) =
      length (concat (mentions <$> events)).
Proof.
  unfold main.
  rewrite (bind_ret _ _ _ _ _ (getSlackAPI_run w)).
  erewrite bind_ret by reflexivity.
  set (w1 := emit (Logged "main: Now listening for events") w).
  assert (∀ w1, ∃ w' new,
            for_each events handle_event w1 = (Ret tt, w') ∧
            w_trace w' = w_trace w1 ++ new ∧
            (fetched new).*2 = concat (mentions <$> events) ∧
            length (replies new) + length (failures new) =
              length (concat (mentions <$> events))) as Hloop.
  { clear. induction events as [|ev events IH]; intros w.
    - exists w, []. rewrite app_nil_r. by repeat split.
    - destruct (handle_event_mentions ev w)
        as (w1 & new1 & Hrun & Htr & _ & Hf & Hc).
      destruct (IH w1) as (w2 & new2 & Hrest & Htr2 & Hf2 & Hc2).
      exists w2, (new1 ++ new2). cbn [for_each].
      rewrite (bind_ret _ _ _ _ _ Hrun).
      split; [done |]. split; [by rewrite Htr2, Htr, <- app_assoc |].
      rewrite fmap_cons. cbn [concat].
      rewrite fetched_app, fmap_app, Hf, Hf2.
      split; [done |]. unfold replies, failures in *.
      rewrite !filter_app, !length_app. lia. }
  destruct (Hloop w1) as (w' & new & Hrun & Htr & Hf & Hc).
  exists w', new. split; [done |].
  split; [|done]. rewrite Htr. unfold w1, emit. cbn [w_trace].
  by rewrite <- app_assoc.
Qed.

(** X6: the line the dispatch logs for an identifier of a text is
    "handleMessage: Identified ", the identifier, " in message".  The
    identifier is passed to log.Printf inside the format, and no identifier
    has a [%] that would be read as a verb. *)
Theorem log_line_of_an_identifier (text issueID : string) :
  issueID ∈ elems (extractIssueIDs text) →
  Sprintf ("handleMessage: Identified " +:+ issueID +:+ " in message") [] =
    "handleMessage: Identified " +:+ issueID +:+ " in message".
Proof.
  intros (m & -> & Htok & _)%elem_of_extractIssueIDs.
  by apply identified_line_token, issue_token_upper.
Qed.

End Trace.

(** * Further properties of the extraction *)

(** ** The matcher finds every delimited token *)

Lemma length_append (a b : string) :
  String.length (a +:+ b) = String.length a + String.length b.
Proof. induction a as [|x a IH]; simpl; [done | by rewrite IH]. Qed.

Lemma match_here_plus_stop cls re prev rest :
  (∀ c, string_head rest = Some c → cls c = false) →
  match_here (Plus cls :: re) prev rest = None.
Proof.
  intros Hhead. destruct rest as [|c rest]; [done |].
  rewrite match_here_plus_cons. by rewrite (Hhead c).
Qed.

(** A run of the class that stops at [rest] is taken whole when the rest
    of the pattern matches behind it. *)
Lemma match_here_plus_greedy cls re (w : string) :
  ∀ prev rest k,
    w ≠ "" → string_forall cls w = true →
    (∀ c, string_head rest = Some c → cls c = false) →
    match_here re (string_last prev w) rest = Some k →
    match_here (Plus cls :: re) prev (w +:+ rest) =
      Some (String.length w + k).
Proof.
  induction w as [|a w IH]; intros prev rest k Hne Hall Hhead Hre; [done |].
  cbn [string_forall] in Hall. apply andb_prop in Hall as [Ha Hw].
  cbn [String.append]. rewrite match_here_plus_cons, Ha.
  destruct w as [|b w].
  - cbn [String.append]. rewrite (match_here_plus_stop _ _ _ _ Hhead).
    cbn [string_last] in Hre. by rewrite Hre.
  - by rewrite (IH (Some a) rest k).
Qed.

Lemma match_here_boundary re prev s :
  match_here (WordBoundary :: re) prev s =
    if at_word_boundary prev s then match_here re prev s else None.
Proof. reflexivity. Qed.

Lemma match_here_lit re c prev s :
  match_here (Lit c :: re) prev (String c s) =
    S <$> match_here re (Some c) s.
Proof. cbn [match_here]. by rewrite Ascii.eqb_refl. Qed.

Lemma digit_is_word c : is_digit c = true → is_word_char c = true.
Proof. unfold is_word_char. by intros ->. Qed.

Lemma match_here_issue_complete prev m rest :
  issue_token m → opt_word prev = false →
  opt_word (string_head rest) = false →
  match_here issue_re prev (m +:+ rest) = Some (String.length m).
Proof.
  intros (w & d & -> & Hw & Hwall & Hd & Hdall) Hprev Hrest.
  rewrite !append_assoc. unfold issue_re.
  assert (at_word_boundary prev (w +:+ "-" +:+ d +:+ rest) = true) as Hb.
  { unfold at_word_boundary. rewrite Hprev.
    destruct w as [|x w]; [done |].
    cbn [string_forall] in Hwall. apply andb_prop in Hwall as [Hx _].
    cbn [String.append string_head opt_word]. by rewrite Hx. }
  rewrite match_here_boundary, Hb.
  rewrite (match_here_plus_greedy is_word_char _ w prev _
             (S (String.length d + 0))); try done.
  - rewrite !length_append. cbn [String.length]. f_equal. lia.
  - by intros c [= <-].
  - cbn [String.append]. rewrite match_here_lit.
    rewrite (match_here_plus_greedy is_digit _ d (Some "-"%char) rest 0);
      try done.
    + intros c Hc. rewrite Hc in Hrest. cbn [opt_word] in Hrest.
      destruct (is_digit c) eqn:Hdc; [|done].
      by rewrite (digit_is_word _ Hdc) in Hrest.
    + rewrite match_here_boundary.
      destruct (string_last_forall is_digit (Some "-"%char) d Hd Hdall)
        as (c & Hc & Hdc).
      unfold at_word_boundary. rewrite Hc, Hrest. cbn [opt_word].
      by rewrite (digit_is_word _ Hdc).
Qed.

(** X7: the pattern matches at a position exactly when a token of word
    characters, a hyphen and digits starts there with no word character
    right before it and none right after it, and the match is that
    token. *)
Theorem match_at_a_position (prev : option ascii) (s : string) (n : nat) :
  match_here issue_re prev s = Some n ↔
  ∃ m rest, s = m +:+ rest ∧ String.length m = n ∧ issue_token m ∧
            opt_word prev = false ∧ opt_word (string_head rest) = false.
Proof.
  split.
  - intros H. destruct (match_here_sound _ _ _ _ H)
      as (m & rest & -> & <- & Hsem).
    destruct (issue_re_sem _ _ _ Hsem) as (Htok & Hp & Hr).
    by exists m, rest.
  - intros (m & rest & -> & <- & Htok & Hp & Hr).
    by apply match_here_issue_complete.
Qed.

(** ** The first mention of a text *)

Lemma word_prefix_of_hyphen_free (P : string) :
  ∀ X W Y,
    P +:+ X = W +:+ String "-" Y →
    string_forall not_hyphen P = true →
    ∃ e, W = P +:+ e.
Proof.
  induction P as [|a P IH]; intros X W Y Heq Hfree; [by exists W |].
  cbn [string_forall] in Hfree. apply andb_prop in Hfree as [Ha HP].
  destruct W as [|b W]; cbn [String.append] in Heq.
  - injection Heq as -> _. done.
  - injection Heq as -> Heq. destruct (IH _ _ _ Heq HP) as (e & ->).
    by exists e.
Qed.

Lemma no_match_in_hyphen_free (pre : string) prev X :
  pre ≠ "" → string_forall not_hyphen pre = true →
  opt_word (string_last prev pre) = false →
  match_here issue_re prev (pre +:+ X) = None.
Proof.
  intros Hne Hfree Hlast.
  destruct (match_here issue_re prev (pre +:+ X)) as [n|] eqn:Hm; [|done].
  exfalso.
  destruct (match_here_issue _ _ _ Hm)
    as (m0 & rest0 & Heq & _ & _ & (w & d & -> & _ & Hw & _) & _).
  rewrite !append_assoc in Heq. cbn [String.append] in Heq.
  destruct (word_prefix_of_hyphen_free _ _ _ _ Heq Hfree) as (e & ->).
  rewrite string_forall_app in Hw. apply andb_prop in Hw as [Hpre _].
  destruct (string_last_forall is_word_char prev pre Hne Hpre)
    as (c & Hc & Hword).
  rewrite Hc in Hlast. cbn [opt_word] in Hlast. congruence.
Qed.

Lemma find_all_first_mention (pre : string) :
  ∀ prev adj m post,
    string_forall not_hyphen pre = true →
    opt_word (string_last prev pre) = false →
    issue_token m → opt_word (string_head post) = false →
    ∃ others, find_all issue_re 0 adj prev (pre +:+ m +:+ post) = m :: others.
Proof.
  induction pre as [|a pre IH]; intros prev adj m post Hfree Hlast Htok Hpost.
  - cbn [String.append string_last] in *. rewrite find_all_zero.
    rewrite (match_here_issue_complete _ _ _ Htok Hlast Hpost).
    destruct (String.length m) as [|n] eqn:Hlen.
    { destruct m; [by apply issue_token_nonempty in Htok | done]. }
    rewrite <- Hlen, substring_prefix. by eexists.
  - rewrite find_all_zero.
    rewrite (no_match_in_hyphen_free (String a pre)) by done.
    cbn [String.append]. apply IH; try done.
    cbn [string_forall] in Hfree. by apply andb_prop in Hfree as [_ ?].
Qed.

Lemma dedup_step_grows enc l m :
  ∃ enc' l0, dedup_step (enc, Some l) m = (enc', Some (l ++ l0)) ∧
             (map_get enc (ToUpper m) = false → l0 = [ToUpper m]).
Proof.
  unfold dedup_step.
  destruct (bool_decide_reflect (map_get enc (ToUpper m) = true)) as [H|H].
  - exists enc, []. rewrite app_nil_r. split; [done | congruence].
  - by exists (<[ToUpper m:=true]> enc), [ToUpper m].
Qed.

Lemma dedup_fold_grows ms :
  ∀ enc l, ∃ l', snd (fold_left dedup_step ms (enc, Some l)) = Some (l ++ l').
Proof.
  induction ms as [|m ms IH]; intros enc l.
  - exists []. by rewrite app_nil_r.
  - cbn [fold_left].
    destruct (dedup_step_grows enc l m) as (enc' & l0 & -> & _).
    destruct (IH enc' (l ++ l0)) as (l' & ->).
    exists (l0 ++ l'). by rewrite app_assoc.
Qed.

Lemma extract_of_matches text m ms :
  find_all issue_re 0 false None text = m :: ms →
  extractIssueIDs text =
    snd (fold_left dedup_step (take (String.length text) ms)
           (<[ToUpper m:=true]> ∅, Some [ToUpper m])).
Proof.
  intros Hfind. unfold extractIssueIDs, FindAllString.
  rewrite Hfind. cbn [Z.ltb Z.compare].
  replace (String.length text + 1) with (S (String.length text)) by lia.
  cbn [take elems default from_option id fold_left].
  reflexivity.
Qed.

Lemma extract_first_match text m others :
  find_all issue_re 0 false None text = m :: others →
  ∃ ids, extractIssueIDs text = Some (ToUpper m :: ids).
Proof.
  intros Hfind. rewrite (extract_of_matches _ _ _ Hfind).
  apply (dedup_fold_grows _ _ [ToUpper m]).
Qed.

(** X8: a token of word characters, a hyphen and digits that stands
    between word boundaries is found, and is the first identifier
    returned, when no hyphen comes before it in the text. *)
Theorem first_mention_is_found (pre m post : string) :
  issue_token m →
  string_forall not_hyphen pre = true →
  opt_word (string_last None pre) = false →
  opt_word (string_head post) = false →
  ∃ others, extractIssueIDs (pre +:+ m +:+ post) = Some (ToUpper m :: others).
Proof.
  intros Htok Hfree Hpre Hpost.
  destruct (find_all_first_mention pre None false m post Hfree Hpre Htok Hpost)
    as (others & Hfind).
  by eapply extract_first_match.
Qed.

(** ** An identifier read again *)

Lemma find_all_skip_all (s : string) :
  ∀ skip adj prev,
    String.length s ≤ skip → find_all issue_re skip adj prev s = [].
Proof.
  induction s as [|a s IH]; intros skip adj prev Hlen.
  - destruct skip; [|done]. rewrite find_all_zero.
    destruct (match_here issue_re prev "") as [n|] eqn:Hm; [|done].
    destruct (match_here_issue _ _ _ Hm) as (m & rest & Heq & _ & _ & Htok & _).
    destruct m; [by apply issue_token_nonempty in Htok | done].
  - cbn [String.length] in Hlen. destruct skip as [|k]; [lia |].
    cbn [find_all]. apply IH. lia.
Qed.

Lemma extract_token m :
  issue_token m → extractIssueIDs m = Some [ToUpper m].
Proof.
  intros Htok.
  assert (find_all issue_re 0 false None m = [m]) as Hfind.
  { rewrite find_all_zero.
    pose proof (match_here_issue_complete None m "" Htok eq_refl eq_refl)
      as Hm.
    rewrite append_nil_r in Hm. rewrite Hm.
    destruct m as [|a m]; [by apply issue_token_nonempty in Htok |].
    cbn [String.length]. rewrite (find_all_skip_all m) by done.
    f_equal. change (S (String.length m)) with (String.length (String a m)).
    rewrite <- (append_nil_r (String a m)) at 2.
    by rewrite substring_prefix. }
  rewrite (extract_of_matches _ _ _ Hfind). by rewrite take_nil.
Qed.

(** X9: an identifier the extractor returns is read back as itself: the
    extractor applied to it returns that identifier alone. *)
Theorem identifier_reads_back (text issueID : string) :
  issueID ∈ elems (extractIssueIDs text) →
  extractIssueIDs issueID = Some [issueID].
Proof.
  intros (m & -> & Htok & _)%elem_of_extractIssueIDs.
  rewrite (extract_token (ToUpper m)) by (by apply issue_token_upper).
  by rewrite ToUpper_idem.
Qed.

(** ** Letter case *)

Lemma upper_byte_word_iff c : is_word_char (upper_byte c) = is_word_char c.
Proof. by_bytes c. Qed.

Lemma upper_byte_digit_iff c : is_digit (upper_byte c) = is_digit c.
Proof. by_bytes c. Qed.

Lemma upper_byte_hyphen c :
  Ascii.eqb (upper_byte c) "-" = Ascii.eqb c "-".
Proof. by_bytes c. Qed.

Lemma issue_re_case_blind : Forall case_blind issue_re.
Proof.
  repeat constructor; intros x;
    [apply upper_byte_word_iff | apply upper_byte_hyphen
    | apply upper_byte_digit_iff].
Qed.

Lemma at_word_boundary_upper prev s :
  at_word_boundary (upper_byte <$> prev) (ToUpper s) = at_word_boundary prev s.
Proof.
  unfold at_word_boundary. f_equal.
  - destruct prev; [apply upper_byte_word_iff | done].
  - destruct s; [done | apply upper_byte_word_iff].
Qed.

Lemma match_here_upper re :
  Forall case_blind re →
  ∀ prev s, match_here re (upper_byte <$> prev) (ToUpper s) =
            match_here re prev s.
Proof.
  induction 1 as [|a re Ha _ IH]; intros prev s; [done |].
  destruct a as [|c|cls]; cbn [case_blind] in Ha.
  - rewrite !match_here_boundary, at_word_boundary_upper. by rewrite IH.
  - destruct s as [|x s]; [done |].
    cbn [ToUpper match_here]. rewrite Ha.
    by rewrite <- (IH (Some x) s).
  - revert prev. induction s as [|x s IHs]; intros prev; [done |].
    cbn [ToUpper]. rewrite !match_here_plus_cons, Ha.
    rewrite <- (IHs (Some x)), <- (IH (Some x) s). done.
Qed.

Lemma substring_upper (s : string) :
  ∀ n, substring 0 n (ToUpper s) = ToUpper (substring 0 n s).
Proof.
  induction s as [|x s IH]; intros [|n]; cbn [ToUpper substring]; try done.
  by rewrite IH.
Qed.

Lemma find_all_upper re :
  Forall case_blind re →
  ∀ s skip adj prev,
    find_all re skip adj (upper_byte <$> prev) (ToUpper s) =
      ToUpper <$> find_all re skip adj prev s.
Proof.
  intros Hre. induction s as [|x s IH]; intros skip adj prev.
  - destruct skip; [|done].
    cbn [ToUpper]. rewrite !find_all_zero.
    pose proof (match_here_upper re Hre prev "") as Hm.
    cbn [ToUpper] in Hm. rewrite Hm.
    destruct (match_here re prev "") as [[|n]|]; [by destruct adj | done | done].
  - pose proof (λ skip adj y, IH skip adj (Some y)) as IH'.
    cbn [fmap option_fmap option_map] in IH'.
    destruct skip as [|k].
    + rewrite (find_all_zero re adj prev (String x s)).
      rewrite (find_all_zero re adj _ (ToUpper (String x s))).
      rewrite (match_here_upper re Hre).
      destruct (match_here re prev (String x s)) as [[|n]|].
      * cbn [ToUpper]. rewrite IH', fmap_app. by destruct adj.
      * rewrite substring_upper, fmap_cons. cbn [ToUpper]. by rewrite IH'.
      * cbn [ToUpper]. by rewrite IH'.
    + cbn [ToUpper find_all]. by rewrite IH'.
Qed.

Lemma length_ToUpper (s : string) :
  String.length (ToUpper s) = String.length s.
Proof. induction s as [|x s IH]; simpl; [done | by rewrite IH]. Qed.

Lemma FindAllString_upper re s n :
  Forall case_blind re →
  elems (FindAllString re (ToUpper s) n) =
    ToUpper <$> elems (FindAllString re s n).
Proof.
  intros Hre. unfold FindAllString. rewrite length_ToUpper.
  pose proof (find_all_upper re Hre s 0 false None) as Hfind.
  cbn [fmap option_fmap option_map] in Hfind. rewrite Hfind.
  rewrite <- fmap_take.
  by destruct (take _ (find_all re 0 false None s)).
Qed.

Lemma dedup_fold_upper ms :
  ∀ st, fold_left dedup_step (ToUpper <$> ms) st = fold_left dedup_step ms st.
Proof.
  induction ms as [|m ms IH]; intros st; [done |].
  rewrite fmap_cons. cbn [fold_left]. rewrite IH. f_equal.
  destruct st as [enc result]. unfold dedup_step. by rewrite ToUpper_idem.
Qed.

Lemma extract_upper text :
  extractIssueIDs (ToUpper text) = extractIssueIDs text.
Proof.
  unfold extractIssueIDs.
  rewrite (FindAllString_upper _ _ _ issue_re_case_blind).
  by rewrite dedup_fold_upper.
Qed.

(** X10: the extractor does not see the case of letters: two texts that
    become equal when every letter a to z is replaced by its capital give
    the same identifiers. *)
Theorem extract_ignores_letter_case (text1 text2 : string) :
  ToUpper text1 = ToUpper text2 →
  extractIssueIDs text1 = extractIssueIDs text2.
Proof.
  intros H. by rewrite <- (extract_upper text1), H, extract_upper.
Qed.

(** ** The number of identifiers *)

Lemma issue_token_length m : issue_token m → 3 ≤ String.length m.
Proof.
  intros (w & d & -> & Hw & _ & Hd & _).
  rewrite !length_append. cbn [String.length].
  destruct w; [done |]. destruct d; [done |]. cbn [String.length]. lia.
Qed.

Lemma find_all_bound (s : string) :
  ∀ skip adj prev,
    3 * length (find_all issue_re skip adj prev s) ≤ String.length s - skip.
Proof.
  induction s as [|a s IH]; intros skip adj prev.
  - rewrite find_all_skip_all by (cbn [String.length]; lia). simpl. lia.
  - destruct skip as [|k]; [|apply (IH k true (Some a))].
    rewrite find_all_zero.
    destruct (match_here issue_re prev (String a s)) as [n|] eqn:Hm.
    + destruct (match_here_sound _ _ _ _ Hm) as (m & rest & Heq & Hlen & Hsem).
      destruct (issue_re_sem _ _ _ Hsem) as (Htok%issue_token_length & _).
      assert (String.length (String a s) =
                String.length m + String.length rest) as Hs
        by (by rewrite Heq, length_append).
      cbn [String.length] in Hs.
      destruct n as [|n]; [lia |].
      cbn [length String.length]. specialize (IH n true (Some a)). lia.
    + cbn [String.length]. specialize (IH 0 false (Some a)). lia.
Qed.

Lemma dedup_step_length enc l m :
  ∃ enc' l0, dedup_step (enc, Some l) m = (enc', Some (l ++ l0)) ∧
             length l0 ≤ 1.
Proof.
  unfold dedup_step. destruct (bool_decide _).
  - exists enc, []. rewrite app_nil_r. split; [done | simpl; lia].
  - by exists (<[ToUpper m:=true]> enc), [ToUpper m].
Qed.

Lemma dedup_fold_length ms :
  ∀ enc l,
    length (elems (snd (fold_left dedup_step ms (enc, Some l)))) ≤
      length l + length ms.
Proof.
  induction ms as [|m ms IH]; intros enc l; [simpl; lia |].
  cbn [fold_left length].
  destruct (dedup_step_length enc l m) as (enc' & l0 & -> & Hl0).
  specialize (IH enc' (l ++ l0)). rewrite length_app in IH. lia.
Qed.

(** X11: a text of n bytes gives at most n / 3 identifiers: three times
    the number of identifiers returned is at most the length of the
    text. *)
Theorem identifiers_bounded_by_length (text : string) :
  3 * len (extractIssueIDs text) ≤ String.length text.
Proof.
  unfold len, extractIssueIDs.
  pose proof (dedup_fold_length
                (elems (FindAllString issue_re text (-1))) ∅ []) as Hd.
  cbn [length] in Hd.
  assert (length (elems (FindAllString issue_re text (-1))) ≤
            length (find_all issue_re 0 false None text)) as Hf.
  { unfold FindAllString.
    destruct (take _ (find_all issue_re 0 false None text)) eqn:Ht;
      [simpl; lia |].
    cbn [elems default from_option id]. rewrite <- Ht, length_take. lia. }
  pose proof (find_all_bound text 0 false None) as Hb.
  rewrite Nat.sub_0_r in Hb.
  etrans; [|exact Hb]. apply Nat.mul_le_mono_l.
  etrans; [exact Hd | exact Hf].
Qed.

(** ** The further properties on sample inputs *)

Lemma replies_and_failures_per_identifier_witness :
  fst (shouldIgnoreMessage (sample_msg "BAD-1 blocks PROJ-42") steady_start)
    = Ret false ∧
  ∃ w' segs,
    handleIncomingMessage (sample_msg "BAD-1 blocks PROJ-42") steady_start
      = (Ret tt, w') ∧
    w_trace w' = w_trace steady_start ++ concat segs ∧
    Forall2
      (λ issueID seg,
         segment (w_env steady_start)
           (Msg.Channel (sample_msg "BAD-1 blocks PROJ-42")) issueID seg ∧
         fetched seg = [(jira_of (w_env steady_start), issueID)] ∧
         length (posts seg) ≤ 1 ∧
         length (replies seg) + length (failures seg) = 1 ∧
         (∀ v, Fetched (jira_of (w_env steady_start)) issueID (Panic v) ∈ seg
               → posts seg = []))
      (elems (extractIssueIDs
                (Msg.Text (sample_msg "BAD-1 blocks PROJ-42")))) segs ∧
    length (posts (concat segs)) ≤
      len (extractIssueIDs (Msg.Text (sample_msg "BAD-1 blocks PROJ-42"))) ∧
    length (replies (concat segs)) + length (failures (concat segs)) =
      len (extractIssueIDs (Msg.Text (sample_msg "BAD-1 blocks PROJ-42"))).
Proof.
  split; [reflexivity |].
  apply (replies_and_failures_per_identifier (Collab := steady)).
  reflexivity.
Defined.

Lemma trace_of_a_message_witness :
  ignored (sample_msg "BAD-1 blocks PROJ-42") = false ∧
  ∃ w' segs,
    handleIncomingMessage (sample_msg "BAD-1 blocks PROJ-42") steady_start
      = (Ret tt, w') ∧
    w_trace w' = w_trace steady_start ++ concat segs ∧
    Forall2 (segment (w_env steady_start)
               (Msg.Channel (sample_msg "BAD-1 blocks PROJ-42")))
      (elems (extractIssueIDs (Msg.Text (sample_msg "BAD-1 blocks PROJ-42"))))
      segs.
Proof.
  split; [reflexivity |].
  apply (trace_of_a_message (Collab := steady)). reflexivity.
Defined.

Lemma ignored_message_only_logs_witness :
  (Msg.Username (Msg.mk "message" "C024BE91L" "U1" "done: PROJ-42"
                   "1456826401.000007" "" "JiraBot" "") = "JiraBot" ∨
   Msg.SubType (Msg.mk "message" "C024BE91L" "U1" "done: PROJ-42"
                  "1456826401.000007" "" "JiraBot" "") = "bot_message") ∧
  handleIncomingMessage
    (Msg.mk "message" "C024BE91L" "U1" "done: PROJ-42"
       "1456826401.000007" "" "JiraBot" "") steady_start =
    (Ret tt,
     mkWorld (w_env steady_start) (w_net steady_start)
       (w_trace steady_start ++ [Logged "handleMessage: Ignoring message"])).
Proof.
  split; [left; reflexivity |].
  apply (ignored_message_only_logs (Collab := steady)). left. reflexivity.
Defined.

Lemma one_fetch_per_identifier_witness :
  ignored (sample_msg "PROJ-42, proj-42 and BAD-1") = false ∧
  ∃ w' new,
    handleIncomingMessage (sample_msg "PROJ-42, proj-42 and BAD-1")
      steady_start = (Ret tt, w') ∧
    w_trace w' = w_trace steady_start ++ new ∧
    fetched new =
      (λ issueID, (jira_of (w_env steady_start), issueID)) <$>
        elems (extractIssueIDs
                 (Msg.Text (sample_msg "PROJ-42, proj-42 and BAD-1"))) ∧
    NoDup (fetched new).
Proof.
  split; [reflexivity |].
  apply (one_fetch_per_identifier (Collab := steady)). reflexivity.
Defined.

Lemma log_line_of_an_identifier_witness :
  "ABC-1" ∈ elems (extractIssueIDs "see abc-1") ∧
  Sprintf ("handleMessage: Identified " +:+ "ABC-1" +:+ " in message") [] =
    "handleMessage: Identified " +:+ "ABC-1" +:+ " in message".
Proof.
  assert ("ABC-1" ∈ elems (extractIssueIDs "see abc-1")) as H
    by (vm_compute; constructor).
  split; [exact H |].
  exact (log_line_of_an_identifier "see abc-1" "ABC-1" H).
Defined.

Lemma first_mention_is_found_witness :
  issue_token "ABC-123" ∧
  string_forall not_hyphen "see " = true ∧
  opt_word (string_last None "see ") = false ∧
  opt_word (string_head "! and DEF-4") = false ∧
  ∃ others,
    extractIssueIDs ("see " +:+ "ABC-123" +:+ "! and DEF-4") =
      Some (ToUpper "ABC-123" :: others).
Proof.
  assert (issue_token "ABC-123") as Htok
    by (exists "ABC", "123"; repeat split; done).
  split; [exact Htok |]. do 3 (split; [reflexivity |]).
  apply (first_mention_is_found "see " "ABC-123" "! and DEF-4" Htok);
    reflexivity.
Defined.

Lemma identifier_reads_back_witness :
  "DEF-2" ∈ elems (extractIssueIDs "see ABC-1 and abc-1 and DEF-2") ∧
  extractIssueIDs "DEF-2" = Some ["DEF-2"].
Proof.
  assert ("DEF-2" ∈ elems (extractIssueIDs "see ABC-1 and abc-1 and DEF-2"))
    as H by (vm_compute; do 2 constructor).
  split; [exact H |].
  exact (identifier_reads_back "see ABC-1 and abc-1 and DEF-2" "DEF-2" H).
Defined.

Lemma extract_ignores_letter_case_witness :
  ToUpper "see abc-1 and Def-2" = ToUpper "SEE Abc-1 AND dEF-2" ∧
  extractIssueIDs "see abc-1 and Def-2" =
    extractIssueIDs "SEE Abc-1 AND dEF-2".
Proof.
  split; [reflexivity |].
  apply extract_ignores_letter_case. reflexivity.
Defined.

(** ** A text without hyphen *)

Lemma no_match_without_hyphen prev (s : string) :
  string_forall not_hyphen s = true → match_here issue_re prev s = None.
Proof.
  intros Hfree.
  destruct (match_here issue_re prev s) as [n|] eqn:Hm; [|done].
  exfalso.
  destruct (match_here_issue _ _ _ Hm)
    as (m & rest & -> & _ & _ & (w & d & -> & _) & _).
  rewrite !append_assoc, string_forall_app in Hfree.
  apply andb_prop in Hfree as [_ Hfree]. by simpl in Hfree.
Qed.

Lemma find_all_without_hyphen (s : string) :
  ∀ skip adj prev,
    string_forall not_hyphen s = true →
    find_all issue_re skip adj prev s = [].
Proof.
  induction s as [|a s IH]; intros skip adj prev Hfree.
  - apply find_all_skip_all. simpl. lia.
  - assert (string_forall not_hyphen s = true) as Hs
      by (cbn [string_forall] in Hfree; by apply andb_prop in Hfree as [_ ?]).
    destruct skip as [|k]; [|by apply IH].
    rewrite find_all_zero, no_match_without_hyphen by done. by apply IH.
Qed.

(** X12: a text without any hyphen mentions no ticket: the extractor
    returns the empty, non-nil slice. *)
Theorem no_hyphen_no_identifier (text : string) :
  string_forall not_hyphen text = true →
  extractIssueIDs text = Some [].
Proof.
  intros Hfree. unfold extractIssueIDs, FindAllString.
  rewrite find_all_without_hyphen by done. by rewrite take_nil.
Qed.

Lemma no_hyphen_no_identifier_witness :
  string_forall not_hyphen "is jira_3 done? 12 34" = true ∧
  extractIssueIDs "is jira_3 done? 12 34" = Some [].
Proof.
  split; [reflexivity |].
  apply no_hyphen_no_identifier. reflexivity.
Defined.
